(** * M1_Algorithmique: the benchmark kernels and the [EvalPerf] probe

    A shallow embedding of
      - [tds/exo4/tp1_exo4.cpp]   ([ma_fonction], here [ma_fonction_exo4]),
      - [tds/exo5/tp2_exo5.cpp]   ([ma_fonction], the in-place prefix sum, and [main]),
      - [tds/exo6/tp2_exo6.cpp]   ([ma_fonction_naive], [ma_fonction_horner], [main]),
      - [tds/EvalPerf.hpp]        (the [EvalPerf] struct and [rdtsc]).

    Conventions.
      - A C++ [int] is a [Z] kept in the range [-2^31, 2^31) by [wrap32]
        (two's complement wrap-around, what g++ on x86-64 produces).
      - An [int*] argument is a [list Z]; a read or a write outside the list
        has no defined behaviour in C++ and makes the function return [None].
      - A [double] is a [spec_float] of the Standard Library, at precision 53
        and maximal exponent 1024 (IEEE 754 binary64, round to nearest even).
      - The clock and the cycle counter are inputs of [start] and [stop]. *)

From Stdlib Require Import ZArith Lia QArith Qabs Qpower Qfield Lqa SpecFloat.
From stdpp Require Import base option list strings.

Local Open Scope Z_scope.

(** ** Machine integers *)

Definition INT_MIN : Z := - 2 ^ 31.
Definition INT_MAX : Z := 2 ^ 31 - 1.

Definition in_int (z : Z) : Prop := INT_MIN <= z <= INT_MAX.

Definition wrap32 (z : Z) : Z := (z + 2 ^ 31) mod 2 ^ 32 - 2 ^ 31.

Definition add32 (a b : Z) : Z := wrap32 (a + b).
Definition mul32 (a b : Z) : Z := wrap32 (a * b).

(** ** tp2_exo5.cpp: the prefix sum

    [for (int i=1; i < n; i++) B[i] = B[i] + B[i-1];]
    [k] counts the iterations that remain, [i] is the loop variable. *)

Fixpoint ma_fonction_loop (k : nat) (i : nat) (B : list Z) : option (list Z) :=
  match k with
  | O => Some B
  | S k' =>
      bi ← B !! i;
      bp ← B !! (i - 1)%nat;
      ma_fonction_loop k' (S i) (<[i := add32 bi bp]> B)
  end.

Definition ma_fonction (B : list Z) (n : Z) : option (list Z) :=
  ma_fonction_loop (Z.to_nat (n - 1)) 1 B.

Definition flops_ma_fonction (n : Z) : Z := n.

(** The running totals of a list, as the specification words them: every
    element is replaced by the sum of the elements up to and including it. *)
Fixpoint running_totals (acc : Z) (l : list Z) : list Z :=
  match l with
  | [] => []
  | x :: l' => (acc + x) :: running_totals (acc + x) l'
  end.

(** The scan the loop of [ma_fonction] performs on the part of the array
    to the right of an element [a] that is already final. *)
Fixpoint scan32 (a : Z) (l : list Z) : list Z :=
  match l with
  | [] => []
  | x :: l' => add32 x a :: scan32 (add32 x a) l'
  end.

(** ** Doubles

    IEEE 754 binary64 through the Standard Library's executable
    specification: 53 bits of precision, exponents up to 1024, rounding to
    nearest with ties to even. *)

Definition prec : Z := 53.
Definition emax : Z := 1024.

Abbreviation double := spec_float.

Definition dadd : double -> double -> double := SFadd prec emax.
Definition dsub : double -> double -> double := SFsub prec emax.
Definition dmul : double -> double -> double := SFmul prec emax.
Definition ddiv : double -> double -> double := SFdiv prec emax.

(** Conversion of an integer ([int], [int64_t] or [uint64_t]) to [double]:
    the nearest double, ties to even. *)
Definition Z_to_double (z : Z) : double := binary_normalize prec emax z 0 false.

(** Truncation toward zero, the integer part of a finite double. *)
Definition double_trunc (x : double) : option Z :=
  match x with
  | S754_zero _ => Some 0
  | S754_finite s m e =>
      Some (cond_Zopp s
              (match e with
               | Z0 => Zpos m
               | Zpos _ => Zpos m * 2 ^ e
               | Zneg _ => Zpos m / 2 ^ (- e)
               end))
  | S754_infinity _ | S754_nan => None
  end.

(** Conversion of a [double] to [int]. C++ defines it only when the
    truncated value fits in an [int]; otherwise the result is [None]
    (on x86-64 [cvttsd2si] then yields [INT_MIN]). *)
Definition double_to_int (x : double) : option Z :=
  z ← double_trunc x;
  if (INT_MIN <=? z) && (z <=? INT_MAX) then Some z else None.

(** The rational number a double stands for (0 for infinities and NaN). *)
Definition SF2Q (x : double) : Q :=
  match x with
  | S754_finite s m e => (inject_Z (cond_Zopp s (Zpos m)) * 2 ^ e)%Q
  | _ => 0%Q
  end.

Definition is_nan (x : double) : bool :=
  match x with S754_nan => true | _ => false end.
Definition is_inf (x : double) : bool :=
  match x with S754_infinity _ => true | _ => false end.
Definition is_zero (x : double) : bool :=
  match x with S754_zero _ => true | _ => false end.
Definition is_finite (x : double) : bool :=
  match x with S754_zero _ | S754_finite _ _ _ => true | _ => false end.

Definition inf_or_nan (x : double) : bool := is_inf x || is_nan x.

(** ** Values of doubles *)

(** The rational [m * 2^e]. *)
Definition B2Q (m e : Z) : Q := (inject_Z m * 2 ^ e)%Q.

(** The relative error of a faithful rounding to 53 bits, [2^-52]. *)
Definition u52 : Q := 1 # 4503599627370496.

(** A normal double: a finite one with a mantissa of exactly 53 bits, and
    an exponent between [lo] and [hi]. *)
Definition normal_between (lo hi : Z) (x : double) : Prop :=
  exists s m e,
    x = S754_finite s m e /\ 2 ^ 52 <= Zpos m < 2 ^ 53 /\ lo <= e <= hi.

(** What a 64-bit counter reading becomes when it is stored in a double. *)
Definition stored_reading (x : double) : Prop :=
  is_zero x = true \/ normal_between (-52) 12 x.

(** ** tp2_exo6.cpp: polynomial evaluation *)

(** [pow] belongs to <math.h>, not to the repository: [pow(alpha, i)] on two
    [int] arguments with [0 <= i] is taken to be the double nearest to the
    exact power (a correctly rounded [pow]). *)
Definition pow (alpha i : Z) : double := Z_to_double (alpha ^ i).

(** [for (int i=0; i<n; i++) res += p[i] * pow(alpha, i);]
    The product and the sum are computed in [double], and the sum is
    converted back to [int] by the compound assignment. *)
Fixpoint naive_loop (p : list Z) (alpha : Z) (k : nat) (i : nat) (res : Z)
  : option Z :=
  match k with
  | O => Some res
  | S k' =>
      pi ← p !! i;
      res' ← double_to_int
                (dadd (Z_to_double res)
                      (dmul (Z_to_double pi) (pow alpha (Z.of_nat i))));
      naive_loop p alpha k' (S i) res'
  end.

Definition ma_fonction_naive (p : list Z) (n alpha : Z) : option Z :=
  naive_loop p alpha (Z.to_nat n) 0 0.

Definition flops_ma_fonction_naive (n : Z) : Z := 3 * n.

(** [for (int i=1; i<=n; i++) res += res * alpha + p[n-i];] *)
Fixpoint horner_loop (p : list Z) (n alpha : Z) (k : nat) (i : Z) (res : Z)
  : option Z :=
  match k with
  | O => Some res
  | S k' =>
      c ← p !! Z.to_nat (n - i);
      horner_loop p n alpha k' (i + 1) (add32 res (add32 (mul32 res alpha) c))
  end.

Definition ma_fonction_horner (p : list Z) (n alpha : Z) : option Z :=
  horner_loop p n alpha (Z.to_nat n) 1 0.

Definition flops_ma_fonction_horner (n : Z) : Z := 2 * n.

(** The polynomial sum of the specification: the sum of [p[i] * alpha^i],
    coefficients low to high, [i] being the degree of the head. *)
Fixpoint poly_sum (p : list Z) (alpha : Z) (i : Z) : Z :=
  match p with
  | [] => 0
  | c :: p' => c * alpha ^ i + poly_sum p' alpha (i + 1)
  end.

(** The regime in which the naive evaluation is exact: every coefficient,
    every power and every term is below 2^53 in absolute value, so that no
    double operation rounds, and every partial sum fits in an [int]. *)
Definition small_terms (p : list Z) (alpha : Z) : Prop :=
  forall (j : nat) (c : Z), p !! j = Some c ->
    Z.abs c < 2 ^ 53 /\
    Z.abs (alpha ^ Z.of_nat j) < 2 ^ 53 /\
    Z.abs (c * alpha ^ Z.of_nat j) < 2 ^ 53.

Definition small_sums (p : list Z) (alpha : Z) : Prop :=
  forall j : nat, (j <= length p)%nat -> in_int (poly_sum (take j p) alpha 0).

(** ** EvalPerf.hpp *)

(** [rdtsc] assembles the two 32-bit halves left by the instruction in
    [eax] and [edx]: [((uint64_t) hi << 32) | lo]. *)
Definition rdtsc (lo hi : Z) : Z := Z.lor (Z.shiftl hi 32 mod 2 ^ 64) lo.

(** The struct. [init] and [end] are [steady_clock] time points, kept as
    their count of nanoseconds; the cycle readings are stored in doubles. *)
Record EvalPerf := mkEvalPerf {
  init : Z;
  end_ : Z;
  elapsed_s : double;
  elapsed_ms : double;
  nb_c0 : double;
  nb_c1 : double;
  nb_tot : double
}.

(** [start()] reads the clock ([now]) and then the cycle counter ([tsc]). *)
Definition start (now tsc : Z) (PE : EvalPerf) : EvalPerf :=
  mkEvalPerf now (end_ PE) (elapsed_s PE) (elapsed_ms PE)
             (Z_to_double tsc) (nb_c1 PE) (nb_tot PE).

(** [stop()] reads the cycle counter ([tsc]) and then the clock ([now]). *)
Definition stop (tsc now : Z) (PE : EvalPerf) : EvalPerf :=
  mkEvalPerf (init PE) now (elapsed_s PE) (elapsed_ms PE)
             (nb_c0 PE) (Z_to_double tsc) (nb_tot PE).

(** [nb_tot = nb_c1 - nb_c0; return nb_tot;] with return type [int]. *)
Definition nb_c (PE : EvalPerf) : option Z * EvalPerf :=
  let t := dsub (nb_c1 PE) (nb_c0 PE) in
  (double_to_int t,
   mkEvalPerf (init PE) (end_ PE) (elapsed_s PE) (elapsed_ms PE)
              (nb_c0 PE) (nb_c1 PE) t).

(** [duration_cast<duration<double>>(end - init).count()]: the difference of
    the nanosecond counts, converted to double and divided by 1e9. *)
Definition nb_s (PE : EvalPerf) : double * EvalPerf :=
  let s := ddiv (Z_to_double (end_ PE - init PE)) (Z_to_double 1000000000) in
  (s,
   mkEvalPerf (init PE) (end_ PE) s (elapsed_ms PE)
              (nb_c0 PE) (nb_c1 PE) (nb_tot PE)).

(** [return (elapsed_s * 1000);] *)
Definition nb_ms (PE : EvalPerf) : double :=
  dmul (elapsed_s PE) (Z_to_double 1000).

(** [return N / nb_tot;] *)
Definition cpi (N : Z) (PE : EvalPerf) : double :=
  ddiv (Z_to_double N) (nb_tot PE).

(** [return nb_tot / N;] *)
Definition ipc (N : Z) (PE : EvalPerf) : double :=
  ddiv (nb_tot PE) (Z_to_double N).

(** A completed interval followed by a reading of the cycle count. *)
Definition measure (t0 a b t1 : Z) (PE : EvalPerf) : EvalPerf :=
  stop b t1 (start t0 a PE).

Definition measure_nb_c (t0 a b t1 : Z) (PE : EvalPerf) : EvalPerf :=
  snd (nb_c (measure t0 a b t1 PE)).

(** *** Sample probes *)

(** A value-initialised probe ([EvalPerf PE{};]): every field is zero. *)
Definition PE_blank : EvalPerf :=
  mkEvalPerf 0 0 (S754_zero false) (S754_zero false)
             (S754_zero false) (S754_zero false) (S754_zero false).

(** A probe on which a first interval of one second was measured and read
    with [nb_s], and then a second interval of two seconds was measured but
    not read. *)
Definition PE_second_interval : EvalPerf :=
  measure 0 0 500 2000000000
          (snd (nb_s (measure 0 0 250 1000000000 PE_blank))).

(** A probe on which a first interval of 250 cycles was measured and read
    with [nb_c], and then a second interval of 500 cycles was measured but
    not read. *)
Definition PE_unread_interval : EvalPerf :=
  measure 0 1000 1500 0 (measure_nb_c 0 0 250 0 PE_blank).

(** ** The two [main] functions

    What [main] does with its command line: the test on [argc], the reads
    of [argv], and the status it returns. The benchmark loops between the
    reads and [return 0] are bounded by [number_of_loops] and [array_size];
    they are not part of this model. *)

Inductive outcome :=
| Usage (status : Z) (message : string)   (* message printed, then return *)
| Completed (status : Z)                  (* return after the loops *)
| Undefined.                              (* a null [argv] entry is read *)

Definition usage_exo5 : string :=
  "You must enter the following details:
min max array_size number_of_loops output_file
".

Definition usage_exo6 : string :=
  "You must enter the following details:
min max array_size number_of_loops alpha output_file
".

(** [argv[1] .. argv[k]], when all of them are there. *)
Fixpoint read_args (argv : list string) (i : nat) (k : nat)
  : option (list string) :=
  match k with
  | O => Some []
  | S k' => a ← argv !! i; rest ← read_args argv (S i) k'; Some (a :: rest)
  end.

Definition main_exo5 (argv : list string) : outcome :=
  let argc := Z.of_nat (length argv) in
  if argc <? 2 then Usage (-1) usage_exo5
  else match read_args argv 1 5 with
       | Some _ => Completed 0
       | None => Undefined
       end.

Definition main_exo6 (argv : list string) : outcome :=
  let argc := Z.of_nat (length argv) in
  if argc <? 2 then Usage (-1) usage_exo6
  else match read_args argv 1 6 with
       | Some _ => Completed 0
       | None => Undefined
       end.

(** ** tp1_exo4.cpp

    [int t=0; for (int i=0; i<n; i++) { t += i; t *= i; } return t;]
    [k] counts the iterations that remain. *)

Fixpoint exo4_loop (k : nat) (i : Z) (t : Z) : Z :=
  match k with
  | O => t
  | S k' => exo4_loop k' (i + 1) (mul32 (add32 t i) i)
  end.

Definition ma_fonction_exo4 (n : Z) : Z := exo4_loop (Z.to_nat n) 0 0.

Definition flops_ma_fonction_exo4 (n : Z) : Z := 2 * n.

(** The same recurrence on unbounded integers. *)
Fixpoint exo4_exact (k : nat) (i : Z) (t : Z) : Z :=
  match k with
  | O => t
  | S k' => exo4_exact k' (i + 1) ((t + i) * i)
  end.

(** ** The random input arrays of the drivers

    [A[i] = rand() % (max + 1 - min) + min; B[i] = A[i];] for [i] from 0 to
    [array_size - 1]. The value returned by the call of [rand()] for the
    element [i] is [rand i]; it lies between 0 and [RAND_MAX]. *)

Definition RAND_MAX : Z := 2 ^ 31 - 1.

(** [a % b] on [int]: the remainder of the division truncated toward zero,
    undefined for a zero divisor and for [INT_MIN % -1]. *)
Definition rem32 (a b : Z) : option Z :=
  if b =? 0 then None
  else if (a =? INT_MIN) && (b =? -1) then None
  else Some (Z.rem a b).

Definition random_element (r min max : Z) : option Z :=
  m ← rem32 r (wrap32 (add32 max 1 - min));
  Some (add32 m min).

(** [l[i] = x] on an array of fixed size. *)
Definition store (l : list Z) (i : nat) (x : Z) : option (list Z) :=
  if (i <? length l)%nat then Some (<[i := x]> l) else None.

Fixpoint fill_loop (rand : nat -> Z) (min max : Z) (k : nat) (i : nat)
    (A B : list Z) : option (list Z * list Z) :=
  match k with
  | O => Some (A, B)
  | S k' =>
      x ← random_element (rand i) min max;
      A' ← store A i x;
      a ← A' !! i;
      B' ← store B i a;
      fill_loop rand min max k' (S i) A' B'
  end.

Definition fill (rand : nat -> Z) (min max array_size : Z) (A B : list Z)
  : option (list Z * list Z) :=
  fill_loop rand min max (Z.to_nat array_size) 0 A B.

(** ** One trial of a driver

    [PE.start(); ...; PE.stop(); N = flops(...); nbctot += PE.nb_c();
     nbstot += PE.nb_s(); nbmstot += PE.nb_ms(); nbcpitot += PE.cpi(N);
     nbipctot += PE.ipc(N);]
    The five values read from the probe, in the order of the calls. *)

Record metrics := mkMetrics {
  m_nbc : option Z;
  m_nbs : double;
  m_nbms : double;
  m_cpi : double;
  m_ipc : double
}.

Definition trial (t0 a b t1 N : Z) (PE : EvalPerf) : metrics * EvalPerf :=
  let PE1 := stop b t1 (start t0 a PE) in
  let '(c, PE2) := nb_c PE1 in
  let '(s, PE3) := nb_s PE2 in
  (mkMetrics c s (nb_ms PE3) (cpi N PE3) (ipc N PE3), PE3).

(** [nbctot += PE.nb_c()] over the trials, the probe being reused; a trial
    is given by its four readings. *)
Fixpoint nbctot_loop (trials : list (Z * Z * Z * Z)) (N : Z) (nbctot : Z)
    (PE : EvalPerf) : option Z :=
  match trials with
  | [] => Some nbctot
  | (t0, a, b, t1) :: rest =>
      let '(m, PE') := trial t0 a b t1 N PE in
      c ← m_nbc m;
      nbctot_loop rest N (add32 nbctot c) PE'
  end.

(** The sum of the cycle deltas of a list of trials. *)
Fixpoint total_cycles (trials : list (Z * Z * Z * Z)) : Z :=
  match trials with
  | [] => 0
  | (_, a, b, _) :: rest => (b - a) + total_cycles rest
  end.

(** A trial whose readings the probe holds exactly: [a <= b] below 2^53,
    with a difference that fits in an [int]. *)
Definition valid_trial (tr : Z * Z * Z * Z) : Prop :=
  let '(_, a, b, _) := tr in 0 <= a <= b /\ b < 2 ^ 53 /\ b - a <= INT_MAX.

(** * Properties *)

(** ** Machine integers *)

Lemma wrap32_in_int z : in_int (wrap32 z).
Proof.
  unfold in_int, wrap32, INT_MIN, INT_MAX.
  pose proof (Z.mod_pos_bound (z + 2 ^ 31) (2 ^ 32) ltac:(lia)). lia.
Qed.

Lemma wrap32_id z : in_int z -> wrap32 z = z.
Proof.
  unfold in_int, wrap32, INT_MIN, INT_MAX. intros H.
  rewrite Z.mod_small; lia.
Qed.

Lemma wrap32_eqm a b : (a - b) mod 2 ^ 32 = 0 -> wrap32 a = wrap32 b.
Proof.
  intros H. unfold wrap32. f_equal.
  apply Z.mod_divide in H; [|lia]. destruct H as [q Hq].
  replace (a + 2 ^ 31) with (b + 2 ^ 31 + q * 2 ^ 32) by lia.
  apply Z.mod_add. lia.
Qed.

Lemma wrap32_spec z : (z - wrap32 z) mod 2 ^ 32 = 0.
Proof.
  unfold wrap32. apply Z.mod_divide; [lia|].
  exists ((z + 2 ^ 31) / 2 ^ 32).
  pose proof (Z.div_mod (z + 2 ^ 31) (2 ^ 32) ltac:(lia)). lia.
Qed.

Lemma wrap32_add_r a b : wrap32 (a + wrap32 b) = wrap32 (a + b).
Proof.
  apply wrap32_eqm. pose proof (wrap32_spec b) as H.
  apply Z.mod_divide in H; [|lia]. destruct H as [q Hq].
  apply Z.mod_divide; [lia|]. exists (- q). lia.
Qed.

Lemma wrap32_add_l a b : wrap32 (wrap32 a + b) = wrap32 (a + b).
Proof. rewrite (Z.add_comm (wrap32 a)), wrap32_add_r. f_equal. lia. Qed.

Lemma wrap32_mul_l a b : wrap32 (wrap32 a * b) = wrap32 (a * b).
Proof.
  apply wrap32_eqm. pose proof (wrap32_spec a) as H.
  apply Z.mod_divide in H; [|lia]. destruct H as [q Hq].
  apply Z.mod_divide; [lia|]. exists (- q * b). nia.
Qed.

(** ** The cycle counter *)

Lemma land_shifted_low hi lo :
  0 <= lo < 2 ^ 32 -> Z.land (hi * 2 ^ 32) lo = 0.
Proof.
  intros Hlo. apply Z.bits_inj'. intros n Hn.
  rewrite Z.land_spec, Z.bits_0.
  destruct (Z_lt_le_dec n 32) as [Hlt|Hge].
  - by rewrite Z.mul_pow2_bits_low.
  - rewrite andb_comm.
    destruct (Z.eq_dec lo 0) as [->|Hnz]; [by rewrite Z.bits_0|].
    rewrite Z.bits_above_log2; [done|lia|].
    pose proof (Z.pow_le_mono_r 2 32 n ltac:(lia) Hge).
    apply Z.log2_lt_pow2; lia.
Qed.

(** [rdtsc] returns [hi * 2^32 + lo], a 64-bit unsigned value. *)
Lemma rdtsc_range lo hi :
  0 <= lo < 2 ^ 32 -> 0 <= hi < 2 ^ 32 ->
  rdtsc lo hi = hi * 2 ^ 32 + lo /\ 0 <= rdtsc lo hi < 2 ^ 64.
Proof.
  intros Hlo Hhi. unfold rdtsc.
  rewrite Z.shiftl_mul_pow2 by lia.
  rewrite Z.mod_small by (change (2 ^ 64) with (2 ^ 32 * 2 ^ 32); nia).
  pose proof (Z.add_lor_land (hi * 2 ^ 32) lo) as H.
  rewrite land_shifted_low in H by done.
  change (2 ^ 64) with (2 ^ 32 * 2 ^ 32). split; nia.
Qed.

(** ** The prefix sum *)

Lemma ma_fonction_loop_scan k : forall pre a suf,
  (k <= length suf)%nat ->
  ma_fonction_loop k (S (length pre)) ((pre ++ [a]) ++ suf)
  = Some ((pre ++ [a]) ++ scan32 a (take k suf) ++ drop k suf).
Proof.
  induction k as [|k IH]; intros pre a suf Hk.
  - simpl. by rewrite drop_0.
  - destruct suf as [|x suf]; [simpl in Hk; lia|].
    assert (Hlen : length (pre ++ [a]) = S (length pre))
      by (rewrite length_app; simpl; lia).
    assert (Hi : ((pre ++ [a]) ++ x :: suf) !! S (length pre) = Some x)
      by (by apply list_lookup_middle).
    assert (Hp : ((pre ++ [a]) ++ x :: suf) !! (S (length pre) - 1)%nat
                 = Some a).
    { rewrite <- (assoc_L (++) pre [a] (x :: suf)).
      apply list_lookup_middle. lia. }
    assert (Hins : <[S (length pre) := add32 x a]> ((pre ++ [a]) ++ x :: suf)
                   = ((pre ++ [a]) ++ [add32 x a]) ++ suf).
    { rewrite insert_app_r_alt by lia.
      rewrite Hlen, Nat.sub_diag. cbn [list_insert].
      by rewrite <- (assoc_L (++) (pre ++ [a])). }
    cbn [ma_fonction_loop]. rewrite Hi, Hp. cbn [mbind option_bind].
    rewrite Hins, <- Hlen.
    rewrite (IH (pre ++ [a]) (add32 x a) suf) by (simpl in Hk; lia).
    simpl. by rewrite <- (assoc_L (++) (pre ++ [a])).
Qed.

Lemma ma_fonction_cons b0 rest :
  ma_fonction (b0 :: rest) (Z.of_nat (length (b0 :: rest)))
  = Some (b0 :: scan32 b0 rest).
Proof.
  unfold ma_fonction.
  replace (Z.to_nat (Z.of_nat (length (b0 :: rest)) - 1)) with (length rest)
    by (simpl; lia).
  pose proof (ma_fonction_loop_scan (length rest) [] b0 rest ltac:(lia)) as H.
  simpl in H. rewrite H. by rewrite firstn_all, drop_all, app_nil_r.
Qed.

Lemma scan32_wrap A l :
  scan32 (wrap32 A) l = wrap32 <$> running_totals A l.
Proof.
  revert A. induction l as [|x l IH]; intros A; [done|].
  simpl. unfold add32 at 1 2. rewrite !wrap32_add_r.
  replace (x + A) with (A + x) by lia. by rewrite IH.
Qed.

Lemma scan32_exact A l :
  Forall in_int (running_totals A l) -> scan32 A l = running_totals A l.
Proof.
  revert A. induction l as [|x l IH]; intros A H; [done|].
  simpl in *. apply Forall_cons in H as [H1 H2].
  unfold add32. replace (x + A) with (A + x) by lia.
  rewrite (wrap32_id _ H1). by rewrite IH.
Qed.

(** C7. The prefix-sum transform replaces every element by the running total
    of the elements up to and including it: on an [int] array the result is
    the list of running totals reduced to 32 bits, it is the list of exact
    running totals when these fit in an [int], and [1,2,3,4] becomes
    [1,3,6,10]. *)
Theorem ma_fonction_running_totals :
  (forall B : list Z, Forall in_int B ->
     ma_fonction B (Z.of_nat (length B))
     = Some (wrap32 <$> running_totals 0 B)) /\
  (forall B : list Z, Forall in_int (running_totals 0 B) ->
     ma_fonction B (Z.of_nat (length B)) = Some (running_totals 0 B)) /\
  ma_fonction [1; 2; 3; 4] 4 = Some [1; 3; 6; 10].
Proof.
  split; [|split]; [| |reflexivity].
  - intros [|b0 rest] HB; [done|].
    rewrite ma_fonction_cons. apply Forall_cons in HB as [H0 _].
    cbn [running_totals fmap list_fmap]. rewrite Z.add_0_l.
    rewrite (wrap32_id _ H0). f_equal. f_equal.
    rewrite <- (wrap32_id _ H0) at 1. apply scan32_wrap.
  - intros [|b0 rest] HB; [done|].
    rewrite ma_fonction_cons. cbn [running_totals] in *.
    apply Forall_cons in HB as [_ HB]. rewrite Z.add_0_l in *.
    by rewrite scan32_exact.
Qed.

Lemma ma_fonction_running_totals_witness :
  Forall in_int [5; -7; 2147483647] /\
  ma_fonction [5; -7; 2147483647] 3 = Some [5; -2; 2147483645].
Proof.
  split.
  - repeat constructor; unfold in_int, INT_MIN, INT_MAX; lia.
  - apply (proj1 ma_fonction_running_totals [5; -7; 2147483647]).
    repeat constructor; unfold in_int, INT_MIN, INT_MAX; lia.
Defined.

Lemma length_scan32 a l : length (scan32 a l) = length l.
Proof. revert a. induction l as [|x l IH]; intros a; simpl; [done|]. by rewrite IH. Qed.

Lemma ma_fonction_le_1 (B : list Z) (n : Z) : n <= 1 -> ma_fonction B n = Some B.
Proof.
  intros Hn. unfold ma_fonction.
  by replace (Z.to_nat (n - 1)) with 0%nat by lia.
Qed.

Lemma ma_fonction_prefix b0 rest (n : Z) :
  1 <= n <= Z.of_nat (length (b0 :: rest)) ->
  ma_fonction (b0 :: rest) n
  = Some (b0 :: scan32 b0 (take (Z.to_nat (n - 1)) rest)
             ++ drop (Z.to_nat (n - 1)) rest).
Proof.
  intros Hn. unfold ma_fonction.
  pose proof (ma_fonction_loop_scan (Z.to_nat (n - 1)) [] b0 rest) as H.
  simpl in H. apply H. simpl in Hn. lia.
Qed.

(** C10. [ma_fonction(B, n)] writes only to the indices 1 to n-1: the call
    is defined as soon as [n] is at most 1 or at most the length of the
    array, it keeps the length, [B[0]] and every element outside 1..n-1, and
    for [n <= 1] it leaves the whole array as it was. *)
Theorem ma_fonction_frame (B : list Z) (n : Z) :
  n <= 1 \/ n <= Z.of_nat (length B) ->
  exists B', ma_fonction B n = Some B' /\
    length B' = length B /\
    B' !! 0%nat = B !! 0%nat /\
    (forall j : nat, (j < 1)%nat \/ n <= Z.of_nat j -> B' !! j = B !! j) /\
    (n <= 1 -> B' = B).
Proof.
  intros Hn.
  destruct (Z_le_gt_dec n 1) as [H1|H1].
  { exists B. rewrite ma_fonction_le_1 by done. repeat split; auto. }
  destruct Hn as [Hn|Hn]; [lia|].
  destruct B as [|b0 rest]; [simpl in Hn; lia|].
  eexists. split; [apply ma_fonction_prefix; lia|].
  set (k := Z.to_nat (n - 1)).
  assert (Hk : (k <= length rest)%nat) by (simpl in Hn; lia).
  assert (Hlen : length (scan32 b0 (take k rest)) = k)
    by (rewrite length_scan32, length_take; lia).
  repeat split.
  - simpl. rewrite length_app, Hlen, length_drop. lia.
  - intros [|j] Hj; [done|].
    assert (k <= j)%nat by lia.
    simpl. rewrite lookup_app_r by lia.
    rewrite Hlen, lookup_drop. f_equal. lia.
  - lia.
Qed.

Lemma ma_fonction_frame_witness :
  exists B', ma_fonction [4; 5; 6; 7] 3 = Some B' /\
    length B' = length [4; 5; 6; 7] /\
    B' !! 0%nat = [4; 5; 6; 7] !! 0%nat /\
    (forall j : nat, (j < 1)%nat \/ 3 <= Z.of_nat j ->
       B' !! j = [4; 5; 6; 7] !! j) /\
    (3 <= 1 -> B' = [4; 5; 6; 7]).
Proof. apply (ma_fonction_frame [4; 5; 6; 7] 3). right. simpl. lia. Defined.

(** ** Polynomial evaluation *)

(** C9. On the empty polynomial ([n = 0]) the naive evaluation and Horner's
    scheme both return 0, whatever the array and [alpha]. *)
Theorem ma_fonction_empty (p : list Z) (alpha : Z) :
  ma_fonction_naive p 0 alpha = Some 0 /\
  ma_fonction_horner p 0 alpha = Some 0.
Proof. split; reflexivity. Qed.

(** What the loop of [ma_fonction_horner] computes: every step multiplies
    the accumulator by [alpha + 1], not by [alpha]. *)
Lemma horner_step res alpha c :
  add32 res (add32 (mul32 res alpha) c) = wrap32 (res * (alpha + 1) + c).
Proof.
  unfold add32, mul32.
  rewrite wrap32_add_l, wrap32_add_r. f_equal. lia.
Qed.

Lemma poly_sum_snoc alpha : forall (l : list Z) x i, 0 <= i ->
  poly_sum (l ++ [x]) alpha i
  = poly_sum l alpha i + x * alpha ^ (i + Z.of_nat (length l)).
Proof.
  induction l as [|y l IHl]; intros x i Hi; cbn [app poly_sum length].
  - change (Z.of_nat 0) with 0. rewrite !Z.add_0_r. lia.
  - rewrite IHl by lia. rewrite Nat2Z.inj_succ.
    replace (i + 1 + Z.of_nat (length l))
      with (i + Z.succ (Z.of_nat (length l))) by lia. lia.
Qed.

Lemma horner_loop_spec alpha : forall (lo hi : list Z) (n : Z) (k : nat) res,
  n = Z.of_nat (length lo + length hi) -> k = length lo ->
  horner_loop (lo ++ hi) n alpha k (Z.of_nat (length hi) + 1) (wrap32 res)
  = Some (wrap32 (res * (alpha + 1) ^ Z.of_nat k
                  + poly_sum lo (alpha + 1) 0)).
Proof.
  induction lo as [|c lo IH] using rev_ind; intros hi n k res Hn Hk; subst k.
  - simpl. f_equal. f_equal. lia.
  - rewrite length_app in Hn. simpl length in Hn.
    rewrite length_app. simpl length.
    replace (length lo + 1)%nat with (S (length lo)) by lia.
    cbn [horner_loop].
    replace (Z.to_nat (n - (Z.of_nat (length hi) + 1)))
      with (length lo) by lia.
    rewrite <- (assoc_L (++) lo [c] hi).
    change ([c] ++ hi) with (c :: hi).
    rewrite list_lookup_middle by done. cbn [mbind option_bind].
    rewrite horner_step.
    replace (wrap32 (wrap32 res * (alpha + 1) + c))
      with (wrap32 (res * (alpha + 1) + c))
      by (rewrite <- (wrap32_add_l (wrap32 res * _)), wrap32_mul_l,
            wrap32_add_l; done).
    pose proof (IH (c :: hi) n (length lo) (res * (alpha + 1) + c)) as IH'.
    simpl length in IH'.
    replace (Z.of_nat (S (length hi)) + 1) with (Z.of_nat (length hi) + 1 + 1)
      in IH' by lia.
    rewrite IH' by lia. f_equal. apply wrap32_eqm.
    replace (Z.of_nat (S (length lo))) with (Z.of_nat (length lo) + 1) by lia.
    rewrite Z.pow_add_r by lia.
    rewrite poly_sum_snoc by lia. rewrite Z.add_0_l.
    match goal with |- ?x mod _ = 0 => replace x with 0 by ring end.
    done.
Qed.

(** On a whole array, [ma_fonction_horner] evaluates the polynomial at
    [alpha + 1]. *)
Lemma ma_fonction_horner_spec (p : list Z) (alpha : Z) :
  ma_fonction_horner p (Z.of_nat (length p)) alpha
  = Some (wrap32 (poly_sum p (alpha + 1) 0)).
Proof.
  unfold ma_fonction_horner. rewrite Nat2Z.id.
  pose proof (horner_loop_spec alpha p [] (Z.of_nat (length p)) (length p) 0)
    as H.
  rewrite app_nil_r in H. change (wrap32 0) with 0 in H.
  change (Z.of_nat (length []) + 1) with 1 in H.
  rewrite H by (simpl; lia). f_equal.
Qed.

(** C1. On [p = [1,2,3]] and [alpha = 2] the polynomial sum is 17 and the
    naive evaluation returns 17, but [ma_fonction_horner] returns 34, the
    value of the polynomial at [alpha + 1 = 3]. *)
Theorem horner_differs_from_naive :
  poly_sum [1; 2; 3] 2 0 = 17 /\
  ma_fonction_naive [1; 2; 3] 3 2 = Some 17 /\
  ma_fonction_horner [1; 2; 3] 3 2 = Some 34 /\
  poly_sum [1; 2; 3] (2 + 1) 0 = 34.
Proof. repeat split; vm_compute; reflexivity. Qed.

(** ** The command line *)





(** C8. With some but not all of the required arguments, neither driver
    prints its usage message: the test is [argc < 2], so the run goes on to
    read an [argv] entry that is not there. With no argument at all the
    status is -1, with all of them it is 0. *)
Theorem main_usage_guard :
  main_exo6 ["./tp2"; "1"; "30"]%string = Undefined /\
  main_exo5 ["./tp2"; "0"; "1000"; "50000"]%string = Undefined /\
  main_exo6 ["./tp2"]%string = Usage (-1) usage_exo6 /\
  main_exo5 ["./tp2"]%string = Usage (-1) usage_exo5 /\
  main_exo6 ["./tp2"; "1"; "30"; "20"; "10"; "6"; "out.txt"]%string
    = Completed 0 /\
  main_exo5 ["./tp2"; "0"; "1000"; "50000"; "10000"; "out.txt"]%string
    = Completed 0.
Proof. repeat split. Qed.

(** ** The probe: elapsed time *)

(** C4, as stated, fails: on the second interval [nb_ms()] called before
    [nb_s()] still returns the 1000 ms of the first interval, while
    [nb_s() * 1000] is 2000. *)
Lemma nb_ms_before_nb_s :
  nb_ms PE_second_interval = Z_to_double 1000 /\
  dmul (fst (nb_s PE_second_interval)) (Z_to_double 1000) = Z_to_double 2000 /\
  nb_ms PE_second_interval
  <> dmul (fst (nb_s PE_second_interval)) (Z_to_double 1000).
Proof. repeat split. vm_compute. discriminate. Qed.

(** C4, amended. Once [nb_s()] has been called on the interval, [nb_ms()]
    returns that value times 1000, and calling [nb_s()] again returns the
    same value; in general [nb_ms()] returns 1000 times the [elapsed_s]
    cached by the latest call of [nb_s()]. *)
Theorem nb_ms_after_nb_s (t0 a b t1 : Z) (PE : EvalPerf) :
  nb_ms (snd (nb_s (measure t0 a b t1 PE)))
  = dmul (fst (nb_s (measure t0 a b t1 PE))) (Z_to_double 1000) /\
  fst (nb_s (snd (nb_s (measure t0 a b t1 PE))))
  = fst (nb_s (measure t0 a b t1 PE)) /\
  nb_ms (measure t0 a b t1 PE) = dmul (elapsed_s PE) (Z_to_double 1000).
Proof. repeat split. Qed.

(** ** The probe: division by a zero operation count *)

(** C5, as stated, fails for [cpi]: after an interval of 250 cycles,
    [cpi(0)] is [0 / 250], a zero, neither an infinity nor a NaN. *)
Lemma cpi_0_is_zero :
  cpi 0 (measure_nb_c 0 100 350 0 PE_blank) = S754_zero false /\
  inf_or_nan (cpi 0 (measure_nb_c 0 100 350 0 PE_blank)) = false.
Proof. split; reflexivity. Qed.

(** C5, amended. For an operation count of 0, [ipc(0)] is an infinity or a
    NaN whatever the probe holds; [cpi(0)] is a NaN when the stored cycle
    count is zero or a NaN, and a zero otherwise. Both are ordinary values
    of the total functions [cpi] and [ipc]: nothing is raised. *)
Theorem cpi_ipc_0 (PE : EvalPerf) :
  inf_or_nan (ipc 0 PE) = true /\
  is_nan (cpi 0 PE) = is_zero (nb_tot PE) || is_nan (nb_tot PE) /\
  is_zero (cpi 0 PE) = negb (is_zero (nb_tot PE) || is_nan (nb_tot PE)).
Proof.
  unfold ipc, cpi, ddiv. change (Z_to_double 0) with (S754_zero false).
  destruct (nb_tot PE) as [s|s| |s m e]; repeat split.
Qed.
(** ** Rounding: the integer side *)

Lemma digits2_pos_bounds m :
  2 ^ (Zpos (digits2_pos m) - 1) <= Zpos m < 2 ^ Zpos (digits2_pos m).
Proof.
  induction m as [m IH|m IH|]; cbn [digits2_pos];
    [rewrite (Pos2Z.inj_xI m)|rewrite (Pos2Z.inj_xO m)|change (1 <= 1 < 2); lia];
    rewrite Pos2Z.inj_succ;
    replace (Z.succ (Zpos (digits2_pos m)) - 1)
      with (Z.succ (Zpos (digits2_pos m) - 1)) by lia;
    rewrite !Z.pow_succ_r by lia; lia.
Qed.

Lemma Zdigits2_bounds z :
  0 < z -> 1 <= Zdigits2 z /\ 2 ^ (Zdigits2 z - 1) <= z < 2 ^ Zdigits2 z.
Proof.
  destruct z as [|m|m]; try lia. intros _. simpl Zdigits2.
  split; [lia|apply digits2_pos_bounds].
Qed.

Lemma Zdigits2_unique z k :
  0 < z -> 2 ^ (k - 1) <= z < 2 ^ k -> Zdigits2 z = k.
Proof.
  intros Hz [H1 H2]. destruct (Zdigits2_bounds z Hz) as (Hd & H3 & H4).
  assert (1 <= k).
  { destruct (Z_lt_le_dec k 1) as [Hk|]; [|done].
    assert (2 ^ k <= 2 ^ 0) by (destruct (Z_lt_le_dec k 0);
      [rewrite Z.pow_neg_r by lia; simpl; lia|apply Z.pow_le_mono_r; lia]).
    simpl in *. lia. }
  destruct (Z_lt_le_dec (Zdigits2 z) k) as [Hlt|Hge].
  - pose proof (Z.pow_le_mono_r 2 (Zdigits2 z) (k - 1) ltac:(lia) ltac:(lia)).
    lia.
  - destruct (Z_lt_le_dec k (Zdigits2 z)) as [Hlt|Hle]; [|lia].
    pose proof (Z.pow_le_mono_r 2 k (Zdigits2 z - 1) ltac:(lia) ltac:(lia)).
    lia.
Qed.

Lemma Zdigits2_mul_pow2 z k :
  0 < z -> 0 <= k -> Zdigits2 (z * 2 ^ k) = Zdigits2 z + k.
Proof.
  intros Hz Hk. destruct (Zdigits2_bounds z Hz) as (Hd & H3 & H4).
  pose proof (Z.pow_pos_nonneg 2 k ltac:(lia) Hk).
  apply Zdigits2_unique; [nia|].
  replace (Zdigits2 z + k - 1) with (Zdigits2 z - 1 + k) by lia.
  rewrite !Z.pow_add_r by lia. nia.
Qed.

Lemma Zdigits2_le z k : 0 < z < 2 ^ k -> Zdigits2 z <= k.
Proof.
  intros [Hz Hlt]. destruct (Zdigits2_bounds z Hz) as (Hd & H1 & _).
  destruct (Z_le_gt_dec (Zdigits2 z) k) as [|Hgt]; [done|].
  destruct (Z_lt_le_dec k 0) as [Hk|Hk].
  { rewrite Z.pow_neg_r in Hlt by done. lia. }
  pose proof (Z.pow_le_mono_r 2 k (Zdigits2 z - 1) ltac:(lia) ltac:(lia)).
  lia.
Qed.

Lemma Zdigits2_ge z k : 0 < z -> 2 ^ (k - 1) <= z -> k <= Zdigits2 z.
Proof.
  intros Hz Hge. destruct (Zdigits2_bounds z Hz) as (Hd & _ & H2).
  destruct (Z_le_gt_dec k (Zdigits2 z)) as [|Hgt]; [done|].
  pose proof (Z.pow_le_mono_r 2 (Zdigits2 z) (k - 1) ltac:(lia) ltac:(lia)).
  lia.
Qed.

Lemma iter_pos_inv {A} (f : A -> A) (P : Z -> A -> Prop) :
  (forall k x, 0 <= k -> P k x -> P (k + 1) (f x)) ->
  forall p k x, 0 <= k -> P k x -> P (k + Zpos p) (SpecFloat.iter_pos f p x).
Proof.
  intros Hstep. induction p as [p IH|p IH|]; intros k x Hk HP; cbn [SpecFloat.iter_pos].
  - replace (k + Zpos p~1) with (k + 1 + Zpos p + Zpos p) by lia.
    apply IH; [lia|]. apply IH; [lia|]. by apply Hstep.
  - replace (k + Zpos p~0) with (k + Zpos p + Zpos p) by lia.
    apply IH; [lia|]. by apply IH.
  - by apply Hstep.
Qed.

Lemma shr_1_spec mrs :
  0 <= shr_m mrs ->
  shr_m (shr_1 mrs) = shr_m mrs / 2 /\
  shr_r (shr_1 mrs) = Z.odd (shr_m mrs) /\
  shr_s (shr_1 mrs) = shr_r mrs || shr_s mrs.
Proof.
  destruct mrs as [m r s]. simpl shr_m. intros Hm.
  destruct m as [|[p|p|]|]; try lia; cbn [shr_1 shr_m shr_r shr_s];
    repeat split.
  - rewrite (Pos2Z.inj_xI p).
    apply (Z.div_unique_pos _ 2 (Zpos p) 1); lia.
  - rewrite (Pos2Z.inj_xO p).
    apply (Z.div_unique_pos _ 2 (Zpos p) 0); lia.
Qed.

Lemma pow2_divide_step m k :
  0 <= k -> m mod 2 ^ (k + 1) = 0 ->
  m mod 2 ^ k = 0 /\ Z.odd (m / 2 ^ k) = false.
Proof.
  intros Hk H. pose proof (Z.pow_pos_nonneg 2 k ltac:(lia) Hk) as Hp.
  apply Z.mod_divide in H; [|rewrite Z.pow_add_r by lia; lia].
  destruct H as [q Hq]. rewrite Z.pow_add_r in Hq by lia.
  replace m with (2 * q * 2 ^ k) by lia.
  rewrite Z.mod_mul, Z.div_mul by lia. split; [done|].
  rewrite Z.odd_mul. done.
Qed.

Lemma shr_iter_spec m r s p :
  0 <= m ->
  let mrs := SpecFloat.iter_pos shr_1 p (Build_shr_record m r s) in
  shr_m mrs = m / 2 ^ Zpos p /\
  (m mod 2 ^ Zpos p = 0 -> r = false -> s = false ->
   shr_r mrs = false /\ shr_s mrs = false).
Proof.
  intros Hm.
  pose (P := fun (k : Z) (x : shr_record) =>
    shr_m x = m / 2 ^ k /\
    (m mod 2 ^ k = 0 -> r = false -> s = false ->
     shr_r x = false /\ shr_s x = false)).
  change (P (Zpos p) (SpecFloat.iter_pos shr_1 p (Build_shr_record m r s))).
  replace (Zpos p) with (0 + Zpos p) by lia.
  apply iter_pos_inv; [|lia|].
  - intros k x Hk [Hx1 Hx2].
    pose proof (Z.pow_pos_nonneg 2 k ltac:(lia) Hk) as Hp.
    assert (0 <= shr_m x) by (rewrite Hx1; apply Z.div_pos; lia).
    destruct (shr_1_spec x) as (E1 & E2 & E3); [done|].
    split.
    + rewrite E1, Hx1, Z.pow_add_r, Z.div_div by lia. done.
    + intros Hmod Hr Hs.
      destruct (pow2_divide_step m k Hk Hmod) as [Hmod' Hodd].
      destruct (Hx2 Hmod' Hr Hs) as [Er Es].
      rewrite E2, E3, Hx1, Er, Es, Hodd. done.
  - split; simpl; [by rewrite Z.div_1_r|]. by intros _ -> ->.
Qed.

Lemma fexp_normal e : -1021 <= e -> fexp prec emax e = e - 53.
Proof. unfold fexp, emin, prec, emax. lia. Qed.

Lemma loc_of_shr_record_of_loc m l :
  loc_of_shr_record (shr_record_of_loc m l) = l.
Proof. by destruct l as [|[]]. Qed.

Lemma shr_m_of_loc m l : shr_m (shr_record_of_loc m l) = m.
Proof. by destruct l as [|[]]. Qed.

Lemma round_nearest_even_spec m l :
  (round_nearest_even m l = m \/ round_nearest_even m l = m + 1) /\
  (l = loc_Exact -> round_nearest_even m l = m).
Proof.
  split; [|by intros ->].
  destruct l as [|[]]; simpl; auto. destruct (Z.even m); auto.
Qed.

(** One application of [shr_fexp] in the normal range: the mantissa is
    divided by [2^n], where [n] is the number of digits above 53. *)
Lemma shr_fexp_spec m e l :
  0 < m -> -1021 <= Zdigits2 m + e ->
  let n := Z.max 0 (Zdigits2 m - 53) in
  exists mrs,
    shr_fexp prec emax m e l = (mrs, e + n) /\
    shr_m mrs = m / 2 ^ n /\
    (Zdigits2 m <= 53 -> mrs = shr_record_of_loc m l) /\
    (l = loc_Exact -> m mod 2 ^ n = 0 -> loc_of_shr_record mrs = loc_Exact).
Proof.
  intros Hm Hr. cbv zeta. unfold shr_fexp. rewrite fexp_normal by done.
  replace (Zdigits2 m + e - 53 - e) with (Zdigits2 m - 53) by lia.
  destruct (Zdigits2 m - 53) as [|p|p] eqn:Ed; unfold shr.
  - exists (shr_record_of_loc m l).
    change (Z.max 0 0) with 0. rewrite Z.add_0_r, Z.pow_0_r, Z.div_1_r.
    repeat split; auto using shr_m_of_loc.
    intros -> _. done.
  - eexists. replace (Z.max 0 (Z.pos p)) with (Z.pos p) by lia.
    split; [reflexivity|].
    assert (Hrec : exists r s, shr_record_of_loc m l = Build_shr_record m r s
                     /\ (l = loc_Exact -> r = false /\ s = false)).
    { destruct l as [|[]]; do 2 eexists; (split; [reflexivity|]);
        try discriminate; auto. }
    destruct Hrec as (r & s & -> & Hl).
    destruct (shr_iter_spec m r s p ltac:(lia)) as [H1 H2].
    repeat split; [done|lia|].
    intros Hx Hmod. destruct (Hl Hx) as [-> ->].
    destruct (H2 Hmod eq_refl eq_refl) as [H3 H4].
    destruct (SpecFloat.iter_pos shr_1 p _) as [m' r' s'].
    simpl in H3, H4. by subst.
  - exists (shr_record_of_loc m l).
    replace (Z.max 0 (Z.neg p)) with 0 by lia.
    rewrite Z.add_0_r, Z.pow_0_r, Z.div_1_r.
    repeat split; auto using shr_m_of_loc.
    intros -> _. done.
Qed.

Lemma div_pow2_53_bounds mx :
  0 < mx -> 53 <= Zdigits2 mx ->
  2 ^ 52 <= mx / 2 ^ (Zdigits2 mx - 53) < 2 ^ 53.
Proof.
  intros Hm Hd. destruct (Zdigits2_bounds mx Hm) as (_ & H1 & H2).
  set (n := Zdigits2 mx - 53) in *.
  pose proof (Z.pow_pos_nonneg 2 n ltac:(lia) ltac:(lia)) as Hp.
  replace (Zdigits2 mx - 1) with (52 + n) in H1 by lia.
  replace (Zdigits2 mx) with (53 + n) in H2 by lia.
  rewrite Z.pow_add_r in H1, H2 by lia.
  split.
  - apply Z.div_le_lower_bound; lia.
  - apply Z.div_lt_upper_bound; lia.
Qed.

(** [binary_round_aux] on a mantissa of at least 53 digits, away from
    overflow and underflow: the mantissa is cut to 53 digits and the last
    one is either kept or incremented. *)
Lemma binary_round_aux_spec s mx ex lx :
  0 < mx -> 53 <= Zdigits2 mx ->
  -1021 <= ex + Zdigits2 mx -> ex + Zdigits2 mx - 52 <= 971 ->
  let n := Zdigits2 mx - 53 in
  let m0 := mx / 2 ^ n in
  exists m' e',
    binary_round_aux prec emax s mx ex lx = S754_finite s m' e' /\
    2 ^ 52 <= Zpos m' < 2 ^ 53 /\
    ((e' = ex + n /\ (Zpos m' = m0 \/ Zpos m' = m0 + 1)) \/
     (e' = ex + n + 1 /\ Zpos m' = 2 ^ 52 /\ m0 + 1 = 2 ^ 53)) /\
    (lx = loc_Exact -> mx mod 2 ^ n = 0 -> e' = ex + n /\ Zpos m' = m0).
Proof.
  intros Hm Hd Hlo Hhi n m0.
  pose proof (div_pow2_53_bounds mx Hm Hd) as Hm0. fold n in Hm0. fold m0 in Hm0.
  unfold binary_round_aux.
  destruct (shr_fexp_spec mx ex lx Hm ltac:(lia)) as (mrs & E & Hs & _ & Hex).
  replace (Z.max 0 (Zdigits2 mx - 53)) with n in * by (unfold n; lia).
  rewrite E. fold m0 in Hs.
  destruct (round_nearest_even_spec (shr_m mrs) (loc_of_shr_record mrs))
    as [Hr Hrx].
  set (m1 := round_nearest_even (shr_m mrs) (loc_of_shr_record mrs)) in *.
  rewrite Hs in Hr, Hrx.
  destruct (Z_lt_le_dec m1 (2 ^ 53)) as [Hlt|Hge].
  - assert (Hd1 : Zdigits2 m1 = 53) by (apply Zdigits2_unique; lia).
    destruct (shr_fexp_spec m1 (ex + n) loc_Exact ltac:(lia) ltac:(lia))
      as (mrs2 & E2 & Hs2 & Hrec2 & _).
    rewrite Hd1 in E2, Hs2, Hrec2. change (Z.max 0 (53 - 53)) with 0 in *.
    rewrite E2. rewrite Z.pow_0_r, Z.div_1_r in Hs2. rewrite Hs2.
    destruct m1 as [|m'|m'] eqn:Em1; try lia.
    exists m', (ex + n + 0).
    destruct (Z.leb_spec (ex + n + 0) (emax - prec)) as [_|Hbad];
      [|unfold emax, prec, n in Hbad; lia].
    split; [done|]. split; [lia|]. split; [left; lia|].
    intros Hx Hmod. rewrite Hrx by auto. lia.
  - assert (Em1 : m1 = 2 ^ 53) by lia.
    assert (Hd1 : Zdigits2 m1 = 54) by (apply Zdigits2_unique; rewrite Em1; lia).
    destruct (shr_fexp_spec m1 (ex + n) loc_Exact ltac:(lia) ltac:(lia))
      as (mrs2 & E2 & Hs2 & _ & _).
    rewrite Hd1 in E2, Hs2. change (Z.max 0 (54 - 53)) with 1 in *.
    rewrite E2. rewrite Em1 in Hs2. change (2 ^ 53 / 2 ^ 1) with (2 ^ 52) in Hs2.
    rewrite Hs2. change (2 ^ 52) with (Zpos 4503599627370496) at 1.
    cbv iota beta.
    destruct (Z.leb_spec (ex + n + 1) (emax - prec)) as [_|Hbad];
      [|unfold emax, prec, n in Hbad; lia].
    exists 4503599627370496%positive, (ex + n + 1).
    split; [done|]. split; [lia|]. split; [right; lia|].
    intros Hx Hmod. rewrite (Hrx (Hex Hx Hmod)) in Em1. lia.
Qed.

Lemma Pos_iter_xO m d : Zpos (Pos.iter xO m d) = Zpos m * 2 ^ Zpos d.
Proof.
  induction d as [|d IH] using Pos.peano_ind.
  - simpl. rewrite (Pos2Z.inj_xO m). lia.
  - rewrite Pos.iter_succ, (Pos2Z.inj_xO (Pos.iter xO m d)), IH.
    rewrite Pos2Z.inj_succ, Z.pow_succ_r by lia. lia.
Qed.

Lemma shl_align_spec mx ex ex' :
  snd (shl_align mx ex ex') = Z.min ex ex' /\
  Zpos (fst (shl_align mx ex ex')) = Zpos mx * 2 ^ (ex - Z.min ex ex').
Proof.
  unfold shl_align. destruct (ex' - ex) as [|d|d] eqn:E; cbn [fst snd].
  - replace (Z.min ex ex') with ex by lia.
    rewrite Z.sub_diag, Z.pow_0_r. lia.
  - replace (Z.min ex ex') with ex by lia.
    rewrite Z.sub_diag, Z.pow_0_r. lia.
  - replace (Z.min ex ex') with ex' by lia.
    rewrite Pos_iter_xO. split; [done|]. do 2 f_equal. lia.
Qed.

(** [binary_round] in the normal range. A mantissa of at most 53 digits is
    shifted left and kept as it is; a longer one is cut to 53 digits. *)
Lemma binary_round_spec s mx ex :
  let d := Zpos (digits2_pos mx) in
  let n := d - 53 in
  -1021 <= d + ex -> ex + d - 52 <= 971 ->
  exists m' e',
    binary_round prec emax s mx ex = S754_finite s m' e' /\
    2 ^ 52 <= Zpos m' < 2 ^ 53 /\
    ((n <= 0 /\ e' = ex + n /\ Zpos m' = Zpos mx * 2 ^ (- n)) \/
     (0 <= n /\
      ((e' = ex + n /\
        (Zpos m' = Zpos mx / 2 ^ n \/ Zpos m' = Zpos mx / 2 ^ n + 1)) \/
       (e' = ex + n + 1 /\ Zpos m' = 2 ^ 52)) /\
      (Zpos mx mod 2 ^ n = 0 -> e' = ex + n /\ Zpos m' = Zpos mx / 2 ^ n))).
Proof.
  intros d n Hlo Hhi. unfold binary_round.
  rewrite fexp_normal by done. fold d.
  destruct (shl_align_spec mx ex (d + ex - 53)) as [He Hm].
  destruct (shl_align mx ex (d + ex - 53)) as [mz ez]. cbn [fst snd] in He, Hm.
  assert (Hdx : Zdigits2 (Zpos mx) = d) by done.
  destruct (Z_le_gt_dec d 53) as [Hd|Hd].
  - replace (Z.min ex (d + ex - 53)) with (ex + n) in * by (unfold n; lia).
    replace (ex - (ex + n)) with (- n) in Hm by lia.
    assert (Hdz : Zdigits2 (Zpos mz) = 53).
    { rewrite Hm, Zdigits2_mul_pow2 by (unfold n; lia). rewrite Hdx. unfold n. lia. }
    pose proof (binary_round_aux_spec s (Zpos mz) ez loc_Exact) as H.
    cbv zeta in H.
    destruct H as (m' & e' & E & Hb & _ & Hx); try lia.
    rewrite Hdz, Z.sub_diag, Z.pow_0_r, Z.div_1_r, Z.add_0_r in Hx.
    destruct Hx as [-> Hm']; [done|apply Z.mod_1_r|].
    exists m', ez. split; [done|]. split; [done|]. left. lia.
  - replace (Z.min ex (d + ex - 53)) with ex in * by lia.
    rewrite Z.sub_diag, Z.pow_0_r, Z.mul_1_r in Hm.
    injection Hm as ->. subst ez.
    pose proof (binary_round_aux_spec s (Zpos mx) ex loc_Exact) as H.
    cbv zeta in H.
    destruct H as (m' & e' & E & Hb & Hc & Hx); try lia.
    rewrite Hdx in Hc, Hx. fold n in Hc, Hx.
    exists m', e'. split; [done|]. split; [done|]. right.
    split; [unfold n; lia|]. split; [|auto].
    destruct Hc as [Hc|(? & ? & _)]; [left|right]; done.
Qed.

(** ** Integers below 2^53 are doubles *)

Lemma Zdigits2_le_53 z : 0 < z < 2 ^ 53 -> 1 <= Zdigits2 z <= 53.
Proof.
  intros [Hz Hlt]. destruct (Zdigits2_bounds z Hz) as (Hd & H1 & _).
  split; [done|].
  destruct (Z_le_gt_dec (Zdigits2 z) 53) as [|Hgt]; [done|].
  pose proof (Z.pow_le_mono_r 2 53 (Zdigits2 z - 1) ltac:(lia) ltac:(lia)).
  lia.
Qed.

Lemma Zdigits2_abs_le_53 z :
  z <> 0 -> Z.abs z < 2 ^ 53 -> 1 <= Zdigits2 z <= 53.
Proof.
  intros Hz Hlt. destruct z as [|p|p]; [done| |];
    apply (Zdigits2_le_53 (Zpos p)); lia.
Qed.

(** ** Signs *)

Lemma binary_round_aux_opp mx ex lx :
  binary_round_aux prec emax true mx ex lx
  = SFopp (binary_round_aux prec emax false mx ex lx).
Proof.
  unfold binary_round_aux.
  destruct (shr_fexp prec emax mx ex lx) as [mrs' e'].
  destruct (shr_fexp prec emax _ e' loc_Exact) as [mrs'' e''].
  destruct (shr_m mrs''); try done. by destruct (_ <=? _).
Qed.

Lemma binary_round_opp m e :
  binary_round prec emax true m e = SFopp (binary_round prec emax false m e).
Proof.
  unfold binary_round. destruct (shl_align _ _ _) as [mz ez].
  apply binary_round_aux_opp.
Qed.

Lemma Z_to_double_opp z : z <> 0 -> Z_to_double (- z) = SFopp (Z_to_double z).
Proof.
  intros Hz. unfold Z_to_double, binary_normalize.
  destruct z as [|p|p]; [done| |].
  - change (- Z.pos p) with (Z.neg p). apply binary_round_opp.
  - change (- Z.neg p) with (Z.pos p). rewrite binary_round_opp.
    generalize (binary_round prec emax false p 0).
    intros [[]|[]| |[] m e]; reflexivity.
Qed.

(** ** Exact results

    A mantissa [z * 2^k] with [z] below 2^53 is rounded to the double that
    stands for [z * 2^k * 2^e], without any error. *)

Lemma binary_round_exact s z k p :
  0 < z < 2 ^ 53 -> 0 <= k <= 900 -> Zpos p = z * 2 ^ k ->
  exists m',
    binary_round prec emax s p (- k) = S754_finite s m' (Zdigits2 z - 53) /\
    Zpos m' = z * 2 ^ (53 - Zdigits2 z).
Proof.
  intros Hz Hk Hp.
  pose proof (Zdigits2_le_53 z Hz) as Hd.
  assert (Hdp : Zdigits2 (Zpos p) = Zdigits2 z + k)
    by (rewrite Hp; apply Zdigits2_mul_pow2; lia).
  pose proof (binary_round_spec s p (- k)) as H. cbv zeta in H.
  change (Zpos (digits2_pos p)) with (Zdigits2 (Zpos p)) in H.
  rewrite Hdp in H. destruct H as (m' & e' & E & Hb & Hc); try lia.
  exists m'. rewrite E.
  set (d := Zdigits2 z) in *.
  assert (e' = d - 53 /\ Zpos m' = z * 2 ^ (53 - d)) as [-> Hm']; [|done].
  destruct Hc as [(Hn & -> & Hm)|(Hn & _ & Hx)].
  - split; [lia|]. rewrite Hm, Hp, <- Z.mul_assoc, <- Z.pow_add_r by lia.
    do 2 f_equal. lia.
  - pose proof (Z.pow_pos_nonneg 2 (d + k - 53) ltac:(lia) ltac:(lia)) as Hpp.
    assert (Hsplit : Zpos p = z * 2 ^ (53 - d) * 2 ^ (d + k - 53)).
    { rewrite Hp, <- Z.mul_assoc, <- Z.pow_add_r by lia. do 2 f_equal. lia. }
    destruct Hx as [-> Hm].
    { rewrite Hsplit. apply Z.mod_mul. lia. }
    split; [lia|]. rewrite Hm, Hsplit. apply Z.div_mul. lia.
Qed.

Lemma Z_to_double_canon z :
  z <> 0 -> Z.abs z < 2 ^ 53 ->
  exists m',
    Z_to_double z = S754_finite (z <? 0) m' (Zdigits2 z - 53) /\
    Zpos m' = Z.abs z * 2 ^ (53 - Zdigits2 z).
Proof.
  intros Hz Hlt. unfold Z_to_double, binary_normalize.
  destruct z as [|p|p]; [done| |].
  - destruct (binary_round_exact false (Zpos p) 0 p) as (m' & E & Hm');
      [lia|lia|lia|]. by exists m'.
  - destruct (binary_round_exact true (Zpos p) 0 p) as (m' & E & Hm');
      [lia|lia|lia|]. by exists m'.
Qed.

Lemma binary_normalize_exact z k :
  Z.abs z < 2 ^ 53 -> 0 <= k <= 900 ->
  binary_normalize prec emax (z * 2 ^ k) (- k) false = Z_to_double z.
Proof.
  intros Hz Hk.
  pose proof (Z.pow_pos_nonneg 2 k ltac:(lia) ltac:(lia)) as Hp.
  destruct (Z.eq_dec z 0) as [->|Hnz]; [done|].
  destruct (Z_to_double_canon z Hnz Hz) as (mc & -> & Hmc).
  unfold binary_normalize.
  destruct z as [|q|q]; [done| |].
  - assert (HM : 0 < Zpos q * 2 ^ k) by nia.
    destruct (Zpos q * 2 ^ k) as [|p|p] eqn:EM; try lia.
    destruct (binary_round_exact false (Zpos q) k p) as (m' & -> & Hm');
      [lia|lia|lia|].
    change (Z.pos q <? 0) with false. f_equal.
    change (Z.abs (Zpos q)) with (Zpos q) in Hmc. lia.
  - assert (HM : Zneg q * 2 ^ k < 0) by nia.
    destruct (Zneg q * 2 ^ k) as [|p|p] eqn:EM; try lia.
    destruct (binary_round_exact true (Zpos q) k p) as (m' & -> & Hm');
      [lia|lia|lia|].
    change (Z.neg q <? 0) with true. f_equal.
    change (Z.abs (Zneg q)) with (Zpos q) in Hmc.
    change (Zdigits2 (Zneg q)) with (Zdigits2 (Zpos q)) in *. lia.
Qed.

Lemma cond_Zopp_abs z v : cond_Zopp (z <? 0) (Z.abs z * v) = z * v.
Proof. unfold cond_Zopp. destruct (Z.ltb_spec z 0); lia. Qed.

(** The mantissa of a stored integer, aligned to a lower exponent. *)
Lemma aligned_value z m ez :
  z <> 0 -> Z.abs z < 2 ^ 53 ->
  Zpos m = Z.abs z * 2 ^ (53 - Zdigits2 z) -> ez <= Zdigits2 z - 53 ->
  -900 <= ez ->
  cond_Zopp (z <? 0) (Zpos (fst (shl_align m (Zdigits2 z - 53) ez)))
  = z * 2 ^ (- ez).
Proof.
  intros Hz Hlt Hm Hez Hlo.
  destruct (shl_align_spec m (Zdigits2 z - 53) ez) as [_ ->].
  replace (Z.min (Zdigits2 z - 53) ez) with ez by lia.
  pose proof (Zdigits2_abs_le_53 z ltac:(done) ltac:(done)) as Hd.
  rewrite Hm, <- Z.mul_assoc, <- Z.pow_add_r by lia.
  replace (53 - Zdigits2 z + (Zdigits2 z - 53 - ez)) with (- ez) by lia.
  apply cond_Zopp_abs.
Qed.

Lemma dadd_exact x y :
  Z.abs x < 2 ^ 53 -> Z.abs y < 2 ^ 53 -> Z.abs (x + y) < 2 ^ 53 ->
  dadd (Z_to_double x) (Z_to_double y) = Z_to_double (x + y).
Proof.
  intros Hx Hy Hxy. unfold dadd.
  destruct (Z.eq_dec x 0) as [->|Hx0].
  { rewrite Z.add_0_l. change (Z_to_double 0) with (S754_zero false).
    destruct (Z.eq_dec y 0) as [->|Hy0]; [done|].
    by destruct (Z_to_double_canon y Hy0 Hy) as (m & -> & _). }
  destruct (Z_to_double_canon x Hx0 Hx) as (mx & Ex & Hmx).
  destruct (Z.eq_dec y 0) as [->|Hy0].
  { rewrite Z.add_0_r, Ex. done. }
  destruct (Z_to_double_canon y Hy0 Hy) as (my & Ey & Hmy).
  rewrite Ex, Ey. unfold SFadd.
  set (ex := Zdigits2 x - 53) in *. set (ey := Zdigits2 y - 53) in *.
  pose proof (Zdigits2_abs_le_53 x ltac:(done) ltac:(done)) as Hdx.
  pose proof (Zdigits2_abs_le_53 y ltac:(done) ltac:(done)) as Hdy.
  unfold ex at 2. unfold ey at 2.
  rewrite !aligned_value by (try done; unfold ex, ey; lia).
  rewrite <- Z.mul_add_distr_r.
  replace (Z.min ex ey) with (- - Z.min ex ey) at 2 by lia.
  apply binary_normalize_exact; [done|unfold ex, ey; lia].
Qed.

Lemma dsub_exact b a :
  Z.abs a < 2 ^ 53 -> Z.abs b < 2 ^ 53 -> Z.abs (b - a) < 2 ^ 53 ->
  dsub (Z_to_double b) (Z_to_double a) = Z_to_double (b - a).
Proof.
  intros Ha Hb Hab. unfold dsub.
  destruct (Z.eq_dec a 0) as [->|Ha0].
  { rewrite Z.sub_0_r. change (Z_to_double 0) with (S754_zero false).
    destruct (Z.eq_dec b 0) as [->|Hb0]; [done|].
    by destruct (Z_to_double_canon b Hb0 Hb) as (m & -> & _). }
  destruct (Z_to_double_canon a Ha0 Ha) as (ma & Ea & Hma).
  destruct (Z.eq_dec b 0) as [->|Hb0].
  { rewrite Z.sub_0_l, Z_to_double_opp, Ea by done. done. }
  destruct (Z_to_double_canon b Hb0 Hb) as (mb & Eb & Hmb).
  rewrite Ea, Eb. unfold SFsub.
  set (ea := Zdigits2 a - 53) in *. set (eb := Zdigits2 b - 53) in *.
  pose proof (Zdigits2_abs_le_53 a ltac:(done) ltac:(done)) as Hda.
  pose proof (Zdigits2_abs_le_53 b ltac:(done) ltac:(done)) as Hdb.
  unfold ea at 2. unfold eb at 2.
  rewrite !aligned_value by (try done; unfold ea, eb; lia).
  rewrite <- Z.mul_sub_distr_r.
  replace (Z.min eb ea) with (- - Z.min eb ea) at 2 by lia.
  apply binary_normalize_exact; [done|unfold ea, eb; lia].
Qed.

Lemma xorb_sign x y :
  x <> 0 -> y <> 0 -> xorb (x <? 0) (y <? 0) = (x * y <? 0).
Proof.
  intros Hx Hy.
  destruct (Z.ltb_spec x 0), (Z.ltb_spec y 0), (Z.ltb_spec (x * y) 0);
    try done; nia.
Qed.

Lemma dmul_exact x y :
  x <> 0 -> y <> 0 -> Z.abs (x * y) < 2 ^ 53 ->
  dmul (Z_to_double x) (Z_to_double y) = Z_to_double (x * y).
Proof.
  intros Hx0 Hy0 Hxy.
  assert (Hx : Z.abs x < 2 ^ 53) by nia.
  assert (Hy : Z.abs y < 2 ^ 53) by nia.
  destruct (Z_to_double_canon x Hx0 Hx) as (mx & -> & Hmx).
  destruct (Z_to_double_canon y Hy0 Hy) as (my & -> & Hmy).
  destruct (Z_to_double_canon (x * y) ltac:(nia) Hxy) as (mc & -> & Hmc).
  pose proof (Zdigits2_abs_le_53 x ltac:(done) ltac:(done)) as Hdx.
  pose proof (Zdigits2_abs_le_53 y ltac:(done) ltac:(done)) as Hdy.
  pose proof (Zdigits2_abs_le_53 (x * y) ltac:(nia) Hxy) as Hdc.
  assert (Hdabs : Zdigits2 (Z.abs (x * y)) = Zdigits2 (x * y))
    by (by destruct (x * y)).
  set (dx := Zdigits2 x) in *. set (dy := Zdigits2 y) in *.
  set (dc := Zdigits2 (x * y)) in *.
  unfold dmul, SFmul. rewrite xorb_sign by done.
  change (Zpos (mx * my)) with (Zpos mx * Zpos my).
  set (K := 53 - dx + (53 - dy)).
  assert (HM : Zpos mx * Zpos my = Z.abs (x * y) * 2 ^ K).
  { rewrite Hmx, Hmy, Z.abs_mul. unfold K. rewrite Z.pow_add_r by lia. ring. }
  assert (HdM : Zdigits2 (Zpos mx * Zpos my) = dc + K).
  { rewrite HM, Zdigits2_mul_pow2 by (unfold K; lia). by rewrite Hdabs. }
  assert (Hn : 52 <= dc + K - 53).
  { assert (105 <= Zdigits2 (Zpos mx * Zpos my)); [|lia].
    apply Zdigits2_ge; [lia|].
    assert (2 ^ 52 <= Zpos mx).
    { rewrite Hmx. destruct (Zdigits2_bounds (Z.abs x) ltac:(lia)) as (_ & B1 & _).
      replace (Zdigits2 (Z.abs x)) with dx in B1 by (by destruct x).
      replace 52 with (dx - 1 + (53 - dx)) by lia.
      rewrite Z.pow_add_r by lia.
      pose proof (Z.pow_pos_nonneg 2 (53 - dx) ltac:(lia) ltac:(lia)). nia. }
    assert (2 ^ 52 <= Zpos my).
    { rewrite Hmy. destruct (Zdigits2_bounds (Z.abs y) ltac:(lia)) as (_ & B1 & _).
      replace (Zdigits2 (Z.abs y)) with dy in B1 by (by destruct y).
      replace 52 with (dy - 1 + (53 - dy)) by lia.
      rewrite Z.pow_add_r by lia.
      pose proof (Z.pow_pos_nonneg 2 (53 - dy) ltac:(lia) ltac:(lia)). nia. }
    change (2 ^ (105 - 1)) with (2 ^ 52 * 2 ^ 52). nia. }
  pose proof (binary_round_aux_spec (x * y <? 0) (Zpos mx * Zpos my)
                (dx - 53 + (dy - 53)) loc_Exact) as H.
  cbv zeta in H. rewrite HdM in H.
  destruct H as (m' & e' & -> & _ & _ & Hex); try lia.
  pose proof (Z.pow_pos_nonneg 2 (dc + K - 53) ltac:(lia) ltac:(lia)) as Hpp.
  assert (Hsplit : Zpos mx * Zpos my
                   = Z.abs (x * y) * 2 ^ (53 - dc) * 2 ^ (dc + K - 53)).
  { rewrite HM, <- Z.mul_assoc, <- Z.pow_add_r by lia. do 2 f_equal. lia. }
  destruct Hex as [-> Hm']; [done|rewrite Hsplit; apply Z.mod_mul; lia|].
  rewrite Hsplit, Z.div_mul in Hm' by lia.
  f_equal; [lia|unfold K; lia].
Qed.

Lemma dmul_zero x y :
  Z.abs x < 2 ^ 53 -> Z.abs y < 2 ^ 53 -> x = 0 \/ y = 0 ->
  is_zero (dmul (Z_to_double x) (Z_to_double y)) = true.
Proof.
  intros Hx Hy [->| ->]; change (Z_to_double 0) with (S754_zero false).
  - destruct (Z.eq_dec y 0) as [->|Hy0]; [done|].
    by destruct (Z_to_double_canon y Hy0 Hy) as (m & -> & _).
  - destruct (Z.eq_dec x 0) as [->|Hx0]; [done|].
    by destruct (Z_to_double_canon x Hx0 Hx) as (m & -> & _).
Qed.

Lemma double_trunc_Z_to_double z :
  Z.abs z < 2 ^ 53 -> double_trunc (Z_to_double z) = Some z.
Proof.
  intros Hz. destruct (Z.eq_dec z 0) as [->|Hnz]; [done|].
  destruct (Z_to_double_canon z Hnz Hz) as (m' & -> & Hm).
  pose proof (Zdigits2_abs_le_53 z ltac:(done) ltac:(done)) as Hd.
  unfold double_trunc. f_equal.
  assert (Hv : match Zdigits2 z - 53 with
               | 0 => Zpos m'
               | Zpos _ => Zpos m' * 2 ^ (Zdigits2 z - 53)
               | Zneg _ => Zpos m' / 2 ^ (- (Zdigits2 z - 53))
               end = Z.abs z).
  { destruct (Zdigits2 z - 53) as [|q|q] eqn:Ed; try lia.
    - rewrite Hm. replace (53 - Zdigits2 z) with 0 by lia.
      rewrite Z.pow_0_r. lia.
    - rewrite Hm. replace (53 - Zdigits2 z) with (- Z.neg q) by lia.
      apply Z.div_mul.
      pose proof (Z.pow_pos_nonneg 2 (- Z.neg q) ltac:(lia) ltac:(lia)). lia. }
  rewrite Hv. unfold cond_Zopp. destruct (Z.ltb_spec z 0); lia.
Qed.

Lemma double_to_int_Z_to_double z :
  in_int z -> double_to_int (Z_to_double z) = Some z.
Proof.
  intros Hz. unfold in_int, INT_MIN, INT_MAX in Hz. unfold double_to_int.
  rewrite double_trunc_Z_to_double by lia.
  cbn [mbind option_bind]. unfold INT_MIN, INT_MAX.
  destruct (Z.leb_spec (- 2 ^ 31) z); [|lia].
  destruct (Z.leb_spec z (2 ^ 31 - 1)); [done|lia].
Qed.

(** ** The naive evaluation, when nothing overflows or rounds *)

Lemma dadd_zero_r x y :
  Z.abs x < 2 ^ 53 -> is_zero y = true ->
  dadd (Z_to_double x) y = Z_to_double x.
Proof.
  intros Hx Hy. destruct y as [s| | |]; try done.
  destruct (Z.eq_dec x 0) as [->|Hx0]; [by destruct s|].
  by destruct (Z_to_double_canon x Hx0 Hx) as (m & -> & _).
Qed.

Lemma naive_step res c alpha i :
  in_int res -> Z.abs c < 2 ^ 53 -> Z.abs (alpha ^ i) < 2 ^ 53 ->
  Z.abs (c * alpha ^ i) < 2 ^ 53 -> in_int (res + c * alpha ^ i) ->
  double_to_int (dadd (Z_to_double res) (dmul (Z_to_double c) (pow alpha i)))
  = Some (res + c * alpha ^ i).
Proof.
  intros Hres Hc Hp Ht Hsum. unfold pow.
  assert (Hr : Z.abs res < 2 ^ 53)
    by (unfold in_int, INT_MIN, INT_MAX in Hres; lia).
  destruct (Z.eq_dec c 0) as [Hc0|Hc0];
    [|destruct (Z.eq_dec (alpha ^ i) 0) as [Hp0|Hp0]].
  - rewrite dadd_zero_r by (try done; apply dmul_zero; auto).
    replace (res + c * alpha ^ i) with res by nia.
    by apply double_to_int_Z_to_double.
  - rewrite dadd_zero_r by (try done; apply dmul_zero; auto).
    replace (res + c * alpha ^ i) with res by nia.
    by apply double_to_int_Z_to_double.
  - rewrite dmul_exact, dadd_exact; try done.
    + by apply double_to_int_Z_to_double.
    + unfold in_int, INT_MIN, INT_MAX in Hsum. lia.
Qed.

Lemma naive_loop_spec alpha : forall suf pre,
  small_terms (pre ++ suf) alpha -> small_sums (pre ++ suf) alpha ->
  naive_loop (pre ++ suf) alpha (length suf) (length pre)
             (poly_sum pre alpha 0)
  = Some (poly_sum (pre ++ suf) alpha 0).
Proof.
  induction suf as [|c suf IH]; intros pre Ht Hs.
  - by rewrite app_nil_r.
  - cbn [length naive_loop].
    rewrite list_lookup_middle by done. cbn [mbind option_bind].
    destruct (Ht (length pre) c) as (Hc & Hp & Hcp);
      [by apply list_lookup_middle|].
    pose proof (Hs (length pre) ltac:(rewrite length_app; lia)) as Hres.
    rewrite take_app_length in Hres.
    pose proof (Hs (S (length pre)) ltac:(rewrite length_app; simpl; lia))
      as Hsum.
    rewrite (cons_middle c pre suf), (assoc_L (++)) in Hsum, Ht, Hs |- *.
    replace (S (length pre)) with (length (pre ++ [c])) in Hsum |- *
      by (rewrite length_app; simpl; lia).
    rewrite take_app_length in Hsum.
    rewrite poly_sum_snoc, Z.add_0_l in Hsum by lia.
    rewrite naive_step by done. cbn [mbind option_bind].
    rewrite <- (IH (pre ++ [c])) by done.
    f_equal. rewrite poly_sum_snoc by lia. by rewrite Z.add_0_l.
Qed.

(** In that regime [ma_fonction_naive] returns the polynomial sum. *)
Lemma ma_fonction_naive_spec (p : list Z) (alpha : Z) :
  small_terms p alpha -> small_sums p alpha ->
  ma_fonction_naive p (Z.of_nat (length p)) alpha = Some (poly_sum p alpha 0).
Proof.
  intros Ht Hs. unfold ma_fonction_naive. rewrite Nat2Z.id.
  apply (naive_loop_spec alpha p []); done.
Qed.

(** ** The probe: cycle count *)

Lemma nb_tot_measure_nb_c t0 a b t1 PE :
  nb_tot (measure_nb_c t0 a b t1 PE) = dsub (Z_to_double b) (Z_to_double a).
Proof. reflexivity. Qed.

(** C6, as stated, fails: the readings are stored in doubles, so above 2^53
    consecutive readings are stored as the same value and [nb_c()] returns
    0 for a difference of 1; and a difference of 2^31 does not fit the [int]
    that [nb_c()] returns. *)
Lemma nb_c_not_exact :
  fst (nb_c (measure 0 (2 ^ 53) (2 ^ 53 + 1) 0 PE_blank)) = Some 0 /\
  fst (nb_c (measure 0 (2 ^ 53) (2 ^ 53 + 1) 0 PE_blank))
  <> Some (2 ^ 53 + 1 - 2 ^ 53) /\
  fst (nb_c (measure 0 0 (2 ^ 31) 0 PE_blank)) = None.
Proof. split; [reflexivity|]. split; [|reflexivity]. vm_compute. discriminate. Qed.

(** C6, amended. For readings [a <= b] below 2^53 whose difference fits in
    an [int], [nb_c()] returns exactly [b - a]. *)
Theorem nb_c_exact (t0 a b t1 : Z) (PE : EvalPerf) :
  0 <= a <= b -> b < 2 ^ 53 -> b - a <= INT_MAX ->
  fst (nb_c (measure t0 a b t1 PE)) = Some (b - a).
Proof.
  intros Hab Hb Hint. unfold nb_c, measure, stop, start. cbn [fst nb_c0 nb_c1].
  rewrite dsub_exact by lia. apply double_to_int_Z_to_double.
  unfold in_int, INT_MIN, INT_MAX in *. lia.
Qed.

Lemma nb_c_exact_witness :
  fst (nb_c (measure 0 100 350 7 PE_blank)) = Some (350 - 100).
Proof.
  apply (nb_c_exact 0 100 350 7 PE_blank); unfold INT_MAX; lia.
Defined.

(** C2, as stated, fails: [cpi] and [ipc] divide by the field [nb_tot],
    which only [nb_c()] updates. On an interval of 500 cycles that was not
    read with [nb_c()], [cpi(1000)] is still 1000 / 250 = 4, not
    1000 / 500 = 2. And above 2^53 the stored difference is not the cycle
    delta even after [nb_c()]: for the readings 2^53 and 2^53 + 1 it is 0
    and [cpi(7)] is an infinity, not 7 / 1. *)
Lemma cpi_unread_interval :
  cpi 1000 PE_unread_interval = Z_to_double 4 /\
  ddiv (Z_to_double 1000) (Z_to_double (1500 - 1000)) = Z_to_double 2 /\
  cpi 1000 PE_unread_interval
  <> ddiv (Z_to_double 1000) (Z_to_double (1500 - 1000)) /\
  ipc 1000 PE_unread_interval
  <> ddiv (Z_to_double (1500 - 1000)) (Z_to_double 1000) /\
  cpi 7 (measure_nb_c 0 (2 ^ 53) (2 ^ 53 + 1) 0 PE_blank)
  <> ddiv (Z_to_double 7) (Z_to_double (2 ^ 53 + 1 - 2 ^ 53)).
Proof. repeat split; vm_compute; discriminate. Qed.

(** C2, amended. Once [nb_c()] has been called on a completed interval
    with readings [a <= b] below 2^53, [cpi(N)] returns the double quotient
    [N / (b - a)] and [ipc(N)] returns [(b - a) / N]. *)
Theorem cpi_ipc_formulas (t0 a b t1 N : Z) (PE : EvalPerf) :
  0 <= a <= b -> b < 2 ^ 53 ->
  cpi N (measure_nb_c t0 a b t1 PE)
  = ddiv (Z_to_double N) (Z_to_double (b - a)) /\
  ipc N (measure_nb_c t0 a b t1 PE)
  = ddiv (Z_to_double (b - a)) (Z_to_double N).
Proof.
  intros Hab Hb. unfold cpi, ipc.
  rewrite nb_tot_measure_nb_c, dsub_exact by lia. done.
Qed.

Lemma cpi_ipc_formulas_witness :
  cpi 1000 (measure_nb_c 0 100 350 7 PE_blank)
  = ddiv (Z_to_double 1000) (Z_to_double (350 - 100)) /\
  ipc 1000 (measure_nb_c 0 100 350 7 PE_blank)
  = ddiv (Z_to_double (350 - 100)) (Z_to_double 1000).
Proof. apply (cpi_ipc_formulas 0 100 350 7 1000 PE_blank); lia. Defined.

(** ** Rounding: the rational side *)

Lemma two_pow_pos e : (0 < 2 ^ e)%Q.
Proof. by apply Qpower_0_lt. Qed.

Lemma two_pow_add a b : (2 ^ (a + b) == 2 ^ a * 2 ^ b)%Q.
Proof. by apply Qpower_plus. Qed.

Lemma inject_two_pow k : 0 <= k -> (inject_Z (2 ^ k) == 2 ^ k)%Q.
Proof. intros Hk. by rewrite Zpower_Qpower. Qed.

Lemma B2Q_shift m k e : 0 <= k -> (B2Q (m * 2 ^ k) e == B2Q m (e + k))%Q.
Proof.
  intros Hk. unfold B2Q.
  rewrite inject_Z_mult, inject_two_pow, two_pow_add by done. ring.
Qed.

Lemma B2Q_le m1 m2 e : m1 <= m2 -> (B2Q m1 e <= B2Q m2 e)%Q.
Proof.
  intros H. unfold B2Q. apply Qmult_le_compat_r.
  - by rewrite <- Zle_Qle.
  - apply Qlt_le_weak, two_pow_pos.
Qed.

Lemma B2Q_pos m e : 0 < m -> (0 < B2Q m e)%Q.
Proof.
  intros H. unfold B2Q. apply Qmult_lt_0_compat; [|apply two_pow_pos].
  change 0%Q with (inject_Z 0). by rewrite <- Zlt_Qlt.
Qed.

Lemma B2Q_mul m1 e1 m2 e2 :
  (B2Q (m1 * m2) (e1 + e2) == B2Q m1 e1 * B2Q m2 e2)%Q.
Proof. unfold B2Q. rewrite inject_Z_mult, two_pow_add. ring. Qed.

(** Cutting [n] digits: the quotient brackets the value. *)
Lemma B2Q_div_bounds m n e :
  0 <= n ->
  (B2Q (m / 2 ^ n) (e + n) <= B2Q m e)%Q /\
  (B2Q (m + 1) e <= B2Q (m / 2 ^ n + 1) (e + n))%Q.
Proof.
  intros Hn. pose proof (Z.pow_pos_nonneg 2 n ltac:(lia) Hn) as Hp.
  pose proof (Z.div_mod m (2 ^ n) ltac:(lia)) as Hdm.
  pose proof (Z.mod_pos_bound m (2 ^ n) Hp) as Hmod.
  split; rewrite <- B2Q_shift by done; apply B2Q_le; nia.
Qed.

Lemma rel_bounds m e (X : Q) :
  2 ^ 52 <= m ->
  (B2Q (m - 1) e <= X <= B2Q (m + 1) e)%Q ->
  ((1 - u52) * B2Q m e <= X <= (1 + u52) * B2Q m e)%Q.
Proof.
  intros Hm [H1 H2]. unfold B2Q in *.
  pose proof (two_pow_pos e) as Hp.
  assert (HM : (4503599627370496 <= inject_Z m)%Q).
  { change 4503599627370496%Q with (inject_Z (2 ^ 52)). by rewrite <- Zle_Qle. }
  unfold Z.sub in H1. rewrite inject_Z_plus in H1, H2.
  rewrite inject_Z_opp in H1. change (inject_Z 1) with 1%Q in H1, H2.
  set (M := inject_Z m) in *. set (p := (2 ^ e)%Q) in *. clearbody M p.
  unfold u52.
  assert (Hu : (0 <= ((1 # 4503599627370496) * M - 1) * p)%Q)
    by (apply Qmult_le_0_compat; lra).
  split; nra.
Qed.

(** [binary_round_aux] is faithful: the result is within one unit in the
    last place, hence within a relative [2^-52], of any value that the
    truncated mantissa brackets. *)
Lemma binary_round_aux_faithful s mx ex lx (X : Q) :
  0 < mx -> 53 <= Zdigits2 mx ->
  -1021 <= ex + Zdigits2 mx -> ex + Zdigits2 mx - 52 <= 971 ->
  (B2Q mx ex <= X <= B2Q (mx + 1) ex)%Q ->
  exists m' e',
    binary_round_aux prec emax s mx ex lx = S754_finite s m' e' /\
    2 ^ 52 <= Zpos m' < 2 ^ 53 /\
    ex + Zdigits2 mx - 53 <= e' <= ex + Zdigits2 mx - 52 /\
    ((1 - u52) * B2Q (Zpos m') e' <= X <= (1 + u52) * B2Q (Zpos m') e')%Q.
Proof.
  intros Hm Hd Hlo Hhi [HX1 HX2].
  pose proof (binary_round_aux_spec s mx ex lx Hm Hd Hlo Hhi) as H.
  cbv zeta in H. destruct H as (m' & e' & E & Hb & Hc & _).
  exists m', e'. split; [done|]. split; [done|].
  set (n := Zdigits2 mx - 53) in *.
  destruct (B2Q_div_bounds mx n ex ltac:(lia)) as [D1 D2].
  set (m0 := mx / 2 ^ n) in *.
  split; [lia|]. apply rel_bounds; [lia|].
  destruct Hc as [[-> [Hm'|Hm']]|(-> & Hm' & Hcarry)]; rewrite Hm'.
  - split.
    + eapply Qle_trans; [|apply HX1]. eapply Qle_trans; [|apply D1].
      apply B2Q_le; lia.
    + eapply Qle_trans; [apply HX2|]. apply D2.
  - split.
    + replace (m0 + 1 - 1) with m0 by lia.
      eapply Qle_trans; [apply D1|apply HX1].
    + eapply Qle_trans; [apply HX2|]. eapply Qle_trans; [apply D2|].
      apply B2Q_le; lia.
  - split.
    + rewrite <- (B2Q_shift (2 ^ 52 - 1) 1 (ex + n)) by lia.
      eapply Qle_trans; [|apply HX1]. eapply Qle_trans; [|apply D1].
      apply B2Q_le. lia.
    + rewrite <- (B2Q_shift (2 ^ 52 + 1) 1 (ex + n)) by lia.
      eapply Qle_trans; [apply HX2|]. eapply Qle_trans; [apply D2|].
      apply B2Q_le; lia.
Qed.

Lemma div_eucl_div_mod a b : Z.div_eucl a b = (a / b, a mod b).
Proof. unfold Z.div, Z.modulo. by destruct (Z.div_eucl a b). Qed.

(** Division of two normal doubles, away from overflow and underflow. *)
Lemma ddiv_faithful sx mx ex sy my ey :
  2 ^ 52 <= Zpos mx < 2 ^ 53 -> 2 ^ 52 <= Zpos my < 2 ^ 53 ->
  -900 <= ex - ey <= 900 ->
  exists m' e',
    ddiv (S754_finite sx mx ex) (S754_finite sy my ey)
    = S754_finite (xorb sx sy) m' e' /\
    2 ^ 52 <= Zpos m' < 2 ^ 53 /\
    ex - ey - 53 <= e' <= ex - ey - 51 /\
    ((1 - u52) * B2Q (Zpos m') e'
     <= B2Q (Zpos mx) ex / B2Q (Zpos my) ey
     <= (1 + u52) * B2Q (Zpos m') e')%Q.
Proof.
  intros Hx Hy He. unfold ddiv, SFdiv, SFdiv_core_binary.
  assert (Hdx : Zdigits2 (Zpos mx) = 53) by (apply Zdigits2_unique; lia).
  assert (Hdy : Zdigits2 (Zpos my) = 53) by (apply Zdigits2_unique; lia).
  rewrite Hdx, Hdy, fexp_normal by lia.
  replace (Z.min (53 + ex - (53 + ey) - 53) (ex - ey)) with (ex - ey - 53)
    by lia.
  replace (ex - ey - (ex - ey - 53)) with 53 by lia.
  cbv iota. rewrite Z.shiftl_mul_pow2 by lia.
  rewrite div_eucl_div_mod.
  set (q := Zpos mx * 2 ^ 53 / Zpos my).
  pose proof (Z.div_mod (Zpos mx * 2 ^ 53) (Zpos my) ltac:(lia)) as Hdm.
  pose proof (Z.mod_pos_bound (Zpos mx * 2 ^ 53) (Zpos my) ltac:(lia)) as Hmod.
  fold q in Hdm.
  assert (Hq : 2 ^ 52 <= q < 2 ^ 54).
  { split; [apply Z.div_le_lower_bound|apply Z.div_lt_upper_bound]; lia. }
  assert (Hdq : 53 <= Zdigits2 q <= 54)
    by (split; [apply Zdigits2_ge|apply Zdigits2_le]; lia).
  pose proof (B2Q_pos (Zpos my) ey ltac:(lia)) as Hypos.
  destruct (binary_round_aux_faithful (xorb sx sy) q (ex - ey - 53)
              (new_location (Zpos my) (Zpos mx * 2 ^ 53 mod Zpos my))
              (B2Q (Zpos mx) ex / B2Q (Zpos my) ey)%Q)
    as (m' & e' & E & Hb & He' & HX); try lia.
  - assert (Hmx : (B2Q (Zpos mx) ex == B2Q (Zpos mx * 2 ^ 53) (ex - 53))%Q).
    { rewrite B2Q_shift by lia. by replace (ex - 53 + 53) with ex by lia. }
    split.
    + apply Qle_shift_div_l; [done|].
      rewrite <- B2Q_mul, Hmx.
      replace (ex - ey - 53 + ey) with (ex - 53) by lia. apply B2Q_le. lia.
    + apply Qle_shift_div_r; [done|].
      rewrite <- B2Q_mul, Hmx.
      replace (ex - ey - 53 + ey) with (ex - 53) by lia. apply B2Q_le. lia.
  - exists m', e'. split; [done|]. split; [done|]. split; [lia|done].
Qed.

(** Multiplication of two normal doubles, away from overflow and
    underflow. *)
Lemma dmul_faithful sx mx ex sy my ey :
  2 ^ 52 <= Zpos mx < 2 ^ 53 -> 2 ^ 52 <= Zpos my < 2 ^ 53 ->
  -900 <= ex + ey <= 800 ->
  exists m' e',
    dmul (S754_finite sx mx ex) (S754_finite sy my ey)
    = S754_finite (xorb sx sy) m' e' /\
    2 ^ 52 <= Zpos m' < 2 ^ 53 /\
    ex + ey + 52 <= e' <= ex + ey + 54 /\
    ((1 - u52) * B2Q (Zpos m') e'
     <= B2Q (Zpos mx) ex * B2Q (Zpos my) ey
     <= (1 + u52) * B2Q (Zpos m') e')%Q.
Proof.
  intros Hx Hy He. unfold dmul, SFmul.
  change (Zpos (mx * my)) with (Zpos mx * Zpos my).
  assert (Hp : 2 ^ 104 <= Zpos mx * Zpos my < 2 ^ 106).
  { change (2 ^ 104) with (2 ^ 52 * 2 ^ 52).
    change (2 ^ 106) with (2 ^ 53 * 2 ^ 53). nia. }
  assert (Hdp : 105 <= Zdigits2 (Zpos mx * Zpos my) <= 106)
    by (split; [apply Zdigits2_ge|apply Zdigits2_le]; lia).
  destruct (binary_round_aux_faithful (xorb sx sy) (Zpos mx * Zpos my)
              (ex + ey) loc_Exact
              (B2Q (Zpos mx) ex * B2Q (Zpos my) ey)%Q)
    as (m' & e' & E & Hb & He' & HX); try lia.
  - rewrite <- B2Q_mul. split; [apply Qle_refl|apply B2Q_le; lia].
  - exists m', e'. split; [done|]. split; [done|]. split; [lia|done].
Qed.

Lemma binary_round_normal s m e :
  -1021 <= Zpos (digits2_pos m) + e -> e + Zpos (digits2_pos m) - 52 <= 971 ->
  normal_between (e + Zpos (digits2_pos m) - 53) (e + Zpos (digits2_pos m) - 52)
                 (binary_round prec emax s m e).
Proof.
  intros Hlo Hhi.
  pose proof (binary_round_spec s m e) as H. cbv zeta in H.
  destruct H as (m' & e' & E & Hb & Hc); try lia.
  exists s, m', e'. split; [done|]. split; [done|].
  destruct Hc as [(? & -> & _)|(? & [[-> _]|[-> _]] & _)]; lia.
Qed.

Lemma normal_between_weaken lo hi lo' hi' x :
  lo' <= lo -> hi <= hi' -> normal_between lo hi x -> normal_between lo' hi' x.
Proof.
  intros ? ? (s & m & e & -> & ? & ?). exists s, m, e. repeat split; lia.
Qed.

(** A non-zero integer of at most 64 bits is stored as a normal double. *)
Lemma Z_to_double_normal z :
  z <> 0 -> Z.abs z < 2 ^ 64 -> normal_between (-52) 12 (Z_to_double z).
Proof.
  intros Hz Hlt. unfold Z_to_double, binary_normalize.
  destruct z as [|p|p]; [done| |];
    pose proof (Zdigits2_bounds (Zpos p) ltac:(lia)) as [Hd _];
    pose proof (Zdigits2_le (Zpos p) 64 ltac:(lia)) as Hd';
    simpl Zdigits2 in Hd, Hd';
    (eapply normal_between_weaken; [| |apply binary_round_normal]; lia).
Qed.

Lemma Z_to_double_stored z :
  0 <= z < 2 ^ 64 -> stored_reading (Z_to_double z).
Proof.
  intros Hz. destruct (Z.eq_dec z 0) as [->|Hnz]; [by left|].
  right. apply Z_to_double_normal; lia.
Qed.

(** The difference of two stored readings is a zero or a normal double. *)
Lemma dsub_stored x y :
  stored_reading x -> stored_reading y ->
  is_zero (dsub x y) = true \/ normal_between (-104) 78 (dsub x y).
Proof.
  intros [Hx|(sx & mx & ex & -> & Hmx & Hex)] [Hy|(sy & my & ey & -> & Hmy & Hey)].
  - destruct x as [[]| | |], y as [[]| | |]; try done; by left.
  - destruct x as [sx| | |]; try done. right.
    exists (negb sy), my, ey. repeat split; try done; lia.
  - destruct y as [sy| | |]; try done. right.
    exists sx, mx, ex. repeat split; try done; lia.
  - unfold dsub, SFsub.
    destruct (shl_align_spec mx ex (Z.min ex ey)) as [_ Hx'].
    destruct (shl_align_spec my ey (Z.min ex ey)) as [_ Hy'].
    replace (Z.min ex (Z.min ex ey)) with (Z.min ex ey) in Hx' by lia.
    replace (Z.min ey (Z.min ex ey)) with (Z.min ex ey) in Hy' by lia.
    set (ez := Z.min ex ey) in *.
    set (ax := Zpos (fst (shl_align mx ex ez))) in *.
    set (ay := Zpos (fst (shl_align my ey ez))) in *.
    assert (Hax : 0 < ax < 2 ^ 117).
    { rewrite Hx'. pose proof (Z.pow_pos_nonneg 2 (ex - ez) ltac:(lia) ltac:(lia)).
      pose proof (Z.pow_le_mono_r 2 (ex - ez) 64 ltac:(lia) ltac:(lia)).
      change (2 ^ 117) with (2 ^ 53 * 2 ^ 64). nia. }
    assert (Hay : 0 < ay < 2 ^ 117).
    { rewrite Hy'. pose proof (Z.pow_pos_nonneg 2 (ey - ez) ltac:(lia) ltac:(lia)).
      pose proof (Z.pow_le_mono_r 2 (ey - ez) 64 ltac:(lia) ltac:(lia)).
      change (2 ^ 117) with (2 ^ 53 * 2 ^ 64). nia. }
    assert (HM : Z.abs (cond_Zopp sx ax - cond_Zopp sy ay) < 2 ^ 118).
    { change (2 ^ 118) with (2 * 2 ^ 117). destruct sx, sy; simpl; lia. }
    destruct (cond_Zopp sx ax - cond_Zopp sy ay) as [|p|p]; [by left| |];
      right; unfold binary_normalize;
      pose proof (Zdigits2_bounds (Zpos p) ltac:(lia)) as [Hd _];
      pose proof (Zdigits2_le (Zpos p) 118 ltac:(lia)) as Hd';
      simpl Zdigits2 in Hd, Hd';
      (eapply normal_between_weaken; [| |apply binary_round_normal]; lia).
Qed.

(** The two quotients [N / t] and [t / N] of normal doubles multiply to a
    double within [2^-50] of 1. *)
Lemma quotients_multiply_to_one (Nf tf : double) :
  normal_between (-200) 200 Nf -> normal_between (-200) 200 tf ->
  exists m e,
    dmul (ddiv Nf tf) (ddiv tf Nf) = S754_finite false m e /\
    (Qabs (B2Q (Zpos m) e - 1) <= 1 # 1125899906842624)%Q.
Proof.
  intros (sN & mN & eN & -> & HmN & HeN) (st & mt & et & -> & Hmt & Het).
  destruct (ddiv_faithful sN mN eN st mt et HmN Hmt ltac:(lia))
    as (m1 & e1 & -> & Hm1 & He1 & HX1).
  destruct (ddiv_faithful st mt et sN mN eN Hmt HmN ltac:(lia))
    as (m2 & e2 & -> & Hm2 & He2 & HX2).
  destruct (dmul_faithful (xorb sN st) m1 e1 (xorb st sN) m2 e2 Hm1 Hm2
              ltac:(lia)) as (m3 & e3 & -> & Hm3 & He3 & HX3).
  exists m3, e3. split; [by destruct sN, st|].
  pose proof (B2Q_pos (Zpos mN) eN ltac:(lia)) as HA.
  pose proof (B2Q_pos (Zpos mt) et ltac:(lia)) as HB.
  pose proof (B2Q_pos (Zpos m1) e1 ltac:(lia)) as Hx.
  pose proof (B2Q_pos (Zpos m2) e2 ltac:(lia)) as Hy.
  pose proof (B2Q_pos (Zpos m3) e3 ltac:(lia)) as Hz.
  set (A := B2Q (Zpos mN) eN) in *. set (B := B2Q (Zpos mt) et) in *.
  set (x := B2Q (Zpos m1) e1) in *. set (y := B2Q (Zpos m2) e2) in *.
  set (z := B2Q (Zpos m3) e3) in *. clearbody A B x y z.
  assert (Hab : (A / B * (B / A) == 1)%Q) by (field; split; lra).
  set (a := (A / B)%Q) in *. set (b := (B / A)%Q) in *. clearbody a b.
  unfold u52 in *.
  destruct HX1 as [X1l X1u], HX2 as [X2l X2u], HX3 as [X3l X3u].
  set (u := 1 # 4503599627370496) in *.
  assert (Hlow : ((1 - u) * x * ((1 - u) * y) <= a * b)%Q).
  { apply Qle_trans with (a * ((1 - u) * y))%Q.
    - apply Qmult_le_compat_r; [lra|]. unfold u. nra.
    - rewrite (Qmult_comm a), (Qmult_comm a). apply Qmult_le_compat_r; [lra|].
      unfold u in *. nra. }
  assert (Hupp : (a * b <= (1 + u) * x * ((1 + u) * y))%Q).
  { apply Qle_trans with (a * ((1 + u) * y))%Q.
    - rewrite (Qmult_comm a), (Qmult_comm a). apply Qmult_le_compat_r; [lra|].
      unfold u in *. nra.
    - apply Qmult_le_compat_r; [lra|]. unfold u. nra. }
  rewrite Hab in Hlow, Hupp.
  set (P := (x * y)%Q) in *.
  assert (Hl2 : ((1 - u) * (1 - u) * P <= 1)%Q)
    by (unfold P; eapply Qle_trans; [|apply Hlow]; apply Qle_lteq; right; ring).
  assert (Hu2 : (1 <= (1 + u) * (1 + u) * P)%Q)
    by (unfold P; eapply Qle_trans; [apply Hupp|]; apply Qle_lteq; right; ring).
  clearbody P. unfold u in *. apply Qabs_Qle_condition. split; lra.
Qed.

(** ** The probe: [cpi] times [ipc] *)

(** C3, as stated, fails: [cpi] and [ipc] divide by the field [nb_tot], which
    [start()] and [stop()] do not touch. On a value-initialised probe an
    interval of 250 cycles that is not read with [nb_c()] leaves [nb_tot] at
    0, so [cpi(7)] is an infinity, [ipc(7)] a zero and their product a NaN. *)
Lemma cpi_times_ipc_unread :
  cpi 7 (measure 0 100 350 0 PE_blank) = S754_infinity false /\
  ipc 7 (measure 0 100 350 0 PE_blank) = S754_zero false /\
  dmul (cpi 7 (measure 0 100 350 0 PE_blank))
       (ipc 7 (measure 0 100 350 0 PE_blank)) = S754_nan.
Proof. repeat split. Qed.

(** C3, amended. Once [nb_c()] has been called on a completed interval and
    the cycle count it stored is not zero, for every non-zero operation
    count [N] the product [cpi(N) * ipc(N)] is a finite double within
    [2^-50] of 1. *)
Theorem cpi_times_ipc (t0 a b t1 N : Z) (PE : EvalPerf) :
  0 <= a < 2 ^ 64 -> 0 <= b < 2 ^ 64 -> in_int N -> N <> 0 ->
  is_zero (nb_tot (measure_nb_c t0 a b t1 PE)) = false ->
  is_finite (dmul (cpi N (measure_nb_c t0 a b t1 PE))
                  (ipc N (measure_nb_c t0 a b t1 PE))) = true /\
  (Qabs (SF2Q (dmul (cpi N (measure_nb_c t0 a b t1 PE))
                    (ipc N (measure_nb_c t0 a b t1 PE))) - 1)
   <= 1 # 1125899906842624)%Q.
Proof.
  intros Ha Hb HN HN0 Hnz. unfold cpi, ipc.
  rewrite nb_tot_measure_nb_c in *.
  destruct (dsub_stored (Z_to_double b) (Z_to_double a))
    as [Hz|Ht]; auto using Z_to_double_stored; [congruence|].
  assert (HNf : normal_between (-52) 12 (Z_to_double N)).
  { apply Z_to_double_normal; [done|].
    unfold in_int, INT_MIN, INT_MAX in HN. lia. }
  destruct (quotients_multiply_to_one (Z_to_double N)
              (dsub (Z_to_double b) (Z_to_double a)))
    as (m & e & -> & Hq).
  - eapply normal_between_weaken; [| |apply HNf]; lia.
  - eapply normal_between_weaken; [| |apply Ht]; lia.
  - split; [done|]. exact Hq.
Qed.

Lemma cpi_times_ipc_witness :
  is_finite (dmul (cpi 7 (measure_nb_c 0 100 350 9 PE_blank))
                  (ipc 7 (measure_nb_c 0 100 350 9 PE_blank))) = true /\
  (Qabs (SF2Q (dmul (cpi 7 (measure_nb_c 0 100 350 9 PE_blank))
                    (ipc 7 (measure_nb_c 0 100 350 9 PE_blank))) - 1)
   <= 1 # 1125899906842624)%Q.
Proof.
  apply (cpi_times_ipc 0 100 350 9 7 PE_blank);
    [lia|lia|unfold in_int, INT_MIN, INT_MAX; lia|lia|reflexivity].
Defined.

(** * Further properties of the code *)

(** ** tp1_exo4.cpp *)

Lemma wrap32_mul_r a b : wrap32 (a * wrap32 b) = wrap32 (a * b).
Proof. rewrite (Z.mul_comm a), wrap32_mul_l. f_equal. lia. Qed.

Lemma exo4_loop_wrap k : forall i t,
  exo4_loop k i (wrap32 t) = wrap32 (exo4_exact k i t).
Proof.
  induction k as [|k IH]; intros i t; [done|].
  cbn [exo4_loop exo4_exact]. rewrite <- IH. f_equal.
  unfold mul32, add32. by rewrite wrap32_add_l, !wrap32_mul_l.
Qed.

Lemma exo4_loop_snoc k : forall i t,
  exo4_loop (S k) i t
  = mul32 (add32 (exo4_loop k i t) (i + Z.of_nat k)) (i + Z.of_nat k).
Proof.
  induction k as [|k IH]; intros i t.
  - cbn [exo4_loop]. change (Z.of_nat 0) with 0. by rewrite Z.add_0_r.
  - change (exo4_loop (S (S k)) i t)
      with (exo4_loop (S k) (i + 1) (mul32 (add32 t i) i)).
    rewrite IH. cbn [exo4_loop].
    by replace (i + 1 + Z.of_nat k) with (i + Z.of_nat (S k)) by lia.
Qed.

(** The loop of tp1_exo4.cpp works modulo 2^32: its result is the exact
    value of the recurrence [t <- (t + i) * i] reduced to 32 bits; one more
    iteration extends the result of the shorter run; and up to [n = 1] the
    result is 0. *)
Theorem ma_fonction_exo4_spec (n : Z) :
  ma_fonction_exo4 n = wrap32 (exo4_exact (Z.to_nat n) 0 0) /\
  (0 <= n ->
   ma_fonction_exo4 (n + 1) = mul32 (add32 (ma_fonction_exo4 n) n) n) /\
  (n <= 1 -> ma_fonction_exo4 n = 0).
Proof.
  unfold ma_fonction_exo4. split; [|split].
  - change 0 with (wrap32 0) at 2. apply exo4_loop_wrap.
  - intros Hn. replace (Z.to_nat (n + 1)) with (S (Z.to_nat n)) by lia.
    rewrite exo4_loop_snoc. by rewrite Z.add_0_l, Z2Nat.id.
  - intros Hn. destruct (Z_le_gt_dec n 0).
    + by replace (Z.to_nat n) with 0%nat by lia.
    + by replace n with 1 by lia.
Qed.

Lemma ma_fonction_exo4_spec_witness :
  ma_fonction_exo4 (4 + 1) = mul32 (add32 (ma_fonction_exo4 4) 4) 4 /\
  ma_fonction_exo4 1 = 0.
Proof.
  split.
  - apply (proj1 (proj2 (ma_fonction_exo4_spec 4))). lia.
  - apply (proj2 (proj2 (ma_fonction_exo4_spec 1))). lia.
Defined.

(** ** tp2_exo5.cpp: the prefix sum on a part of the array *)

(** Called with [n] below the size of the array, [ma_fonction] turns the
    first [n] elements into their running totals (reduced to 32 bits) and
    leaves the rest as it is. *)
Theorem ma_fonction_partial (B : list Z) (n : Z) :
  Forall in_int B -> 1 <= n <= Z.of_nat (length B) ->
  ma_fonction B n
  = Some ((wrap32 <$> running_totals 0 (take (Z.to_nat n) B))
          ++ drop (Z.to_nat n) B).
Proof.
  intros HB Hn. destruct B as [|b0 rest]; [simpl in Hn; lia|].
  rewrite ma_fonction_prefix by done.
  apply Forall_cons in HB as [H0 _].
  replace (Z.to_nat n) with (S (Z.to_nat (n - 1))) by lia.
  cbn [take drop running_totals fmap list_fmap app]. rewrite Z.add_0_l.
  rewrite (wrap32_id _ H0). do 3 f_equal.
  rewrite <- (wrap32_id _ H0) at 1. apply scan32_wrap.
Qed.

Lemma ma_fonction_partial_witness :
  ma_fonction [1; 2; 3; 4; 5] 3
  = Some ((wrap32 <$> running_totals 0 (take (Z.to_nat 3) [1; 2; 3; 4; 5]))
          ++ drop (Z.to_nat 3) [1; 2; 3; 4; 5]).
Proof.
  apply (ma_fonction_partial [1; 2; 3; 4; 5] 3).
  - repeat constructor; unfold in_int, INT_MIN, INT_MAX; lia.
  - simpl. lia.
Defined.

Lemma scan32_step a l : forall (i : nat) (x : Z),
  l !! i = Some x ->
  exists y y', scan32 a l !! i = Some y /\
               (a :: scan32 a l) !! i = Some y' /\
               y = add32 x y'.
Proof.
  revert a. induction l as [|z l IH]; intros a i x Hx; [done|].
  destruct i as [|i]; cbn [scan32].
  - injection Hx as ->. by exists (add32 x a), a.
  - destruct (IH (add32 z a) i x Hx) as (y & y' & H1 & H2 & H3).
    by exists y, y'.
Qed.

(** The input can be read back from the output: in the transformed part,
    the difference of two neighbours is the original element. *)
Theorem ma_fonction_differences (B : list Z) (n : Z) (i : nat) (x : Z) :
  Forall in_int B -> n <= Z.of_nat (length B) ->
  (1 <= i)%nat -> Z.of_nat i < n -> B !! i = Some x ->
  exists B' y y',
    ma_fonction B n = Some B' /\
    B' !! i = Some y /\ B' !! (i - 1)%nat = Some y' /\
    wrap32 (y - y') = x.
Proof.
  intros HB Hn Hi Hin Hx.
  destruct B as [|b0 rest]; [done|].
  destruct i as [|i]; [lia|]. cbn in Hx.
  eexists. rewrite ma_fonction_prefix by lia.
  set (k := Z.to_nat (n - 1)).
  assert (Hk : take k rest !! i = Some x)
    by (rewrite lookup_take_lt by lia; done).
  destruct (scan32_step b0 (take k rest) i x Hk) as (y & y' & H1 & H2 & H3).
  exists y, y'. split; [reflexivity|].
  replace (S i - 1)%nat with i by lia.
  split; [|split].
  - change ((scan32 b0 (take k rest) ++ drop k rest) !! i = Some y).
    by rewrite lookup_app_l by (by apply lookup_lt_Some in H1).
  - change (((b0 :: scan32 b0 (take k rest)) ++ drop k rest) !! i = Some y').
    by rewrite lookup_app_l by (by apply lookup_lt_Some in H2).
  - subst y. unfold add32.
    replace (wrap32 (x + y') - y') with (- y' + wrap32 (x + y')) by lia.
    rewrite wrap32_add_r. replace (- y' + (x + y')) with x by lia.
    apply wrap32_id.
    assert (Hin' : x ∈ b0 :: rest)
      by (apply list_elem_of_lookup; exists (S i); done).
    by apply (proj1 (Forall_forall _ _) HB).
Qed.

Lemma ma_fonction_differences_witness :
  exists B' y y',
    ma_fonction [5; 7; 11] 3 = Some B' /\
    B' !! 2%nat = Some y /\ B' !! (2 - 1)%nat = Some y' /\
    wrap32 (y - y') = 11.
Proof.
  apply (ma_fonction_differences [5; 7; 11] 3 2 11); try (simpl; lia); try done.
  repeat constructor; unfold in_int, INT_MIN, INT_MAX; lia.
Defined.

(** ** The random input arrays *)

Lemma random_element_range r min max :
  in_int min -> in_int max -> min <= max -> max - min < INT_MAX ->
  0 <= r <= RAND_MAX ->
  random_element r min max = Some (min + r mod (max + 1 - min)) /\
  min <= min + r mod (max + 1 - min) <= max.
Proof.
  unfold in_int, INT_MIN, INT_MAX, RAND_MAX. intros Hmin Hmax Hle Hw Hr.
  pose proof (Z.mod_pos_bound r (max + 1 - min) ltac:(lia)) as Hm.
  split; [|lia]. unfold random_element, add32.
  replace (wrap32 (max + 1) - min) with (wrap32 (max + 1) + - min) by lia.
  rewrite wrap32_add_l.
  rewrite (wrap32_id (max + 1 + - min))
    by (unfold in_int, INT_MIN, INT_MAX; lia).
  replace (max + 1 + - min) with (max + 1 - min) by lia.
  unfold rem32.
  destruct (Z.eqb_spec (max + 1 - min) 0) as [|_]; [lia|].
  destruct (Z.eqb_spec r INT_MIN) as [E|_];
    [unfold INT_MIN in E; lia|].
  cbn [andb mbind option_bind]. rewrite Z.rem_mod_nonneg by lia.
  rewrite wrap32_id by (unfold in_int, INT_MIN, INT_MAX; lia).
  f_equal. lia.
Qed.

Lemma store_lt (l : list Z) (i : nat) (x : Z) :
  (i < length l)%nat -> store l i x = Some (<[i := x]> l).
Proof.
  intros H. unfold store. by destruct (Nat.ltb_spec i (length l)); [|lia].
Qed.

Lemma fill_loop_spec rand min max :
  in_int min -> in_int max -> min <= max -> max - min < INT_MAX ->
  (forall j : nat, 0 <= rand j <= RAND_MAX) ->
  forall (k i : nat) (A B : list Z),
  (i + k <= length A)%nat -> length B = length A ->
  exists A' B',
    fill_loop rand min max k i A B = Some (A', B') /\
    length A' = length A /\ length B' = length A /\
    (forall j : nat, (i <= j < i + k)%nat ->
       A' !! j = Some (min + rand j mod (max + 1 - min)) /\
       B' !! j = Some (min + rand j mod (max + 1 - min))) /\
    (forall j : nat, (j < i)%nat \/ (i + k <= j)%nat ->
       A' !! j = A !! j /\ B' !! j = B !! j).
Proof.
  intros Hmin Hmax Hle Hw Hrand.
  induction k as [|k IH]; intros i A B Hk HB.
  - exists A, B. split; [done|]. split; [done|]. split; [done|].
    split; [intros j Hj; lia|done].
  - cbn [fill_loop].
    destruct (random_element_range (rand i) min max) as [-> _]; auto.
    cbn [mbind option_bind].
    rewrite store_lt by lia. cbn [mbind option_bind].
    rewrite list_lookup_insert_eq by lia. cbn [mbind option_bind].
    rewrite store_lt by lia. cbn [mbind option_bind].
    set (x := min + rand i mod (max + 1 - min)).
    destruct (IH (S i) (<[i := x]> A) (<[i := x]> B))
      as (A' & B' & E & LA & LB & Hin & Hout).
    { rewrite length_insert. lia. }
    { by rewrite !length_insert. }
    rewrite length_insert in LA, LB.
    exists A', B'. split; [done|]. split; [done|]. split; [done|]. split.
    + intros j Hj. destruct (decide (j = i)) as [->|Hne].
      * destruct (Hout i ltac:(lia)) as [-> ->].
        by rewrite !list_lookup_insert_eq by lia.
      * apply Hin. lia.
    + intros j Hj. destruct (Hout j ltac:(lia)) as [-> ->].
      by rewrite !list_lookup_insert_ne by lia.
Qed.

(** The generated arrays: for [min <= max] (and a range that fits in an
    [int]) every element lies between [min] and [max], element [j] is
    [min + rand() mod (max + 1 - min)], and [B] is a copy of [A]. *)
Theorem fill_spec (rand : nat -> Z) (min max array_size : Z) (A B : list Z) :
  in_int min -> in_int max -> min <= max -> max - min < INT_MAX ->
  (forall j : nat, 0 <= rand j <= RAND_MAX) ->
  length A = Z.to_nat array_size -> length B = Z.to_nat array_size ->
  exists A',
    fill rand min max array_size A B = Some (A', A') /\
    length A' = Z.to_nat array_size /\
    (forall j : nat, (j < Z.to_nat array_size)%nat ->
       A' !! j = Some (min + rand j mod (max + 1 - min))) /\
    Forall (fun x => min <= x <= max) A'.
Proof.
  intros Hmin Hmax Hle Hw Hrand HA HB. unfold fill.
  destruct (fill_loop_spec rand min max Hmin Hmax Hle Hw Hrand
              (Z.to_nat array_size) 0 A B)
    as (A' & B' & E & LA & LB & Hin & _); [lia|congruence|].
  assert (B' = A') as ->.
  { apply list_eq. intros j.
    destruct (Nat.lt_ge_cases j (Z.to_nat array_size)) as [Hj|Hj].
    - destruct (Hin j ltac:(lia)) as [-> ->]. done.
    - by rewrite !lookup_ge_None_2 by lia. }
  exists A'. split; [done|]. split; [lia|]. split.
  - intros j Hj. apply Hin. lia.
  - apply Forall_lookup. intros j x Hx.
    pose proof (lookup_lt_Some _ _ _ Hx) as Hj.
    destruct (Hin j ltac:(lia)) as [Hj' _]. rewrite Hj' in Hx.
    injection Hx as <-.
    by destruct (random_element_range (rand j) min max) as [_ ?].
Qed.

Lemma fill_spec_witness :
  exists A',
    fill (fun j => (Z.of_nat j * 7919) mod 32768) 3 12 4
         [0; 0; 0; 0] [9; 9; 9; 9]
    = Some (A', A') /\
    length A' = Z.to_nat 4 /\
    (forall j : nat, (j < Z.to_nat 4)%nat ->
       A' !! j = Some (3 + ((Z.of_nat j * 7919) mod 32768) mod (12 + 1 - 3))) /\
    Forall (fun x => 3 <= x <= 12) A'.
Proof.
  apply (fill_spec (fun j => (Z.of_nat j * 7919) mod 32768) 3 12 4
                   [0; 0; 0; 0] [9; 9; 9; 9]);
    try (unfold in_int, INT_MIN, INT_MAX; lia); try reflexivity.
  intros j. unfold RAND_MAX.
  pose proof (Z.mod_pos_bound (Z.of_nat j * 7919) 32768 ltac:(lia)). lia.
Defined.

(** With [min = max + 1] the modulus is zero: the first element already
    divides by zero. *)
Theorem fill_zero_modulus (rand : nat -> Z) (min max array_size : Z)
    (A B : list Z) :
  in_int min -> in_int max -> min = max + 1 -> 0 < array_size ->
  fill rand min max array_size A B = None.
Proof.
  intros Hmin Hmax -> Hn. unfold fill.
  destruct (Z.to_nat array_size) as [|k] eqn:E; [lia|].
  cbn [fill_loop]. unfold random_element, add32.
  replace (wrap32 (max + 1) - (max + 1))
    with (wrap32 (max + 1) + - (max + 1)) by lia.
  rewrite wrap32_add_l. replace (max + 1 + - (max + 1)) with 0 by lia.
  done.
Qed.

Lemma fill_zero_modulus_witness :
  fill (fun j => Z.of_nat j) 5 4 3 [0; 0; 0] [0; 0; 0] = None.
Proof.
  apply (fill_zero_modulus (fun j => Z.of_nat j) 5 4 3);
    unfold in_int, INT_MIN, INT_MAX; lia.
Defined.

(** ** The command line, in general *)



(** ** The probe: signed and oversized cycle counts *)

Lemma cycle_delta_value a b :
  0 <= a < 2 ^ 53 -> 0 <= b < 2 ^ 53 ->
  double_trunc (dsub (Z_to_double b) (Z_to_double a)) = Some (b - a).
Proof.
  intros Ha Hb. rewrite dsub_exact by lia.
  apply double_trunc_Z_to_double. lia.
Qed.

(** [nb_c()] returns the signed difference of the readings: when the
    counter went backwards ([b < a], readings below 2^53) the result is the
    negative number [b - a]. *)
Theorem nb_c_signed (t0 a b t1 : Z) (PE : EvalPerf) :
  0 <= a < 2 ^ 53 -> 0 <= b < 2 ^ 53 -> in_int (b - a) ->
  fst (nb_c (measure t0 a b t1 PE)) = Some (b - a).
Proof.
  intros Ha Hb Hint. unfold nb_c, measure, stop, start.
  cbn [fst nb_c0 nb_c1]. unfold double_to_int.
  rewrite cycle_delta_value by done. cbn [mbind option_bind].
  unfold in_int in Hint.
  destruct (Z.leb_spec INT_MIN (b - a)); [|lia].
  destruct (Z.leb_spec (b - a) INT_MAX); [done|lia].
Qed.

Lemma nb_c_signed_witness :
  fst (nb_c (measure 0 350 100 7 PE_blank)) = Some (100 - 350).
Proof.
  apply (nb_c_signed 0 350 100 7 PE_blank);
    unfold in_int, INT_MIN, INT_MAX; lia.
Defined.



(** ** One trial of a driver *)

(** In the order in which the drivers call the accessors ([nb_c], [nb_s],
    [nb_ms], [cpi], [ipc]), every value read belongs to the interval just
    measured: none depends on what the probe held before [start()], the
    milliseconds are the seconds of this interval times 1000, and [cpi] and
    [ipc] divide by the difference of this interval's readings. *)
Theorem trial_metrics (t0 a b t1 N : Z) (PE PE' : EvalPerf) :
  fst (trial t0 a b t1 N PE) = fst (trial t0 a b t1 N PE') /\
  m_nbms (fst (trial t0 a b t1 N PE))
  = dmul (m_nbs (fst (trial t0 a b t1 N PE))) (Z_to_double 1000) /\
  m_cpi (fst (trial t0 a b t1 N PE))
  = ddiv (Z_to_double N) (dsub (Z_to_double b) (Z_to_double a)) /\
  m_ipc (fst (trial t0 a b t1 N PE))
  = ddiv (dsub (Z_to_double b) (Z_to_double a)) (Z_to_double N).
Proof. repeat split. Qed.

Lemma nbctot_loop_spec (trials : list (Z * Z * Z * Z)) (N : Z) :
  Forall valid_trial trials ->
  forall (tot : Z) (PE : EvalPerf),
  nbctot_loop trials N (wrap32 tot) PE
  = Some (wrap32 (tot + total_cycles trials)).
Proof.
  induction 1 as [|[[[t0 a] b] t1] trials (Hab & Hb & Hint) _ IH];
    intros tot PE.
  - cbn. by rewrite Z.add_0_r.
  - cbn [nbctot_loop total_cycles]. unfold trial.
    cbn [nb_c nb_s fst snd m_nbc nb_c0 nb_c1 stop start].
    rewrite dsub_exact by lia.
    rewrite double_to_int_Z_to_double
      by (unfold in_int, INT_MIN, INT_MAX in *; lia).
    cbn [mbind option_bind]. unfold add32. rewrite wrap32_add_l, IH.
    do 2 f_equal. lia.
Qed.

(** The accumulated cycle count of a run is the value the accumulator had
    before the first trial plus the sum of the cycle deltas of the trials,
    reduced to 32 bits. *)
Theorem nbctot_total (trials : list (Z * Z * Z * Z)) (N nbctot : Z)
    (PE : EvalPerf) :
  Forall valid_trial trials -> in_int nbctot ->
  nbctot_loop trials N nbctot PE
  = Some (wrap32 (nbctot + total_cycles trials)).
Proof.
  intros Ht Hn. rewrite <- (wrap32_id _ Hn) at 1.
  by apply nbctot_loop_spec.
Qed.

Lemma nbctot_total_witness :
  nbctot_loop [(0, 100, 350, 9); (20, 400, 1000, 30)] 60 0 PE_blank
  = Some (wrap32 (0 + total_cycles [(0, 100, 350, 9); (20, 400, 1000, 30)])).
Proof.
  apply (nbctot_total [(0, 100, 350, 9); (20, 400, 1000, 30)] 60 0 PE_blank).
  - repeat constructor; unfold INT_MAX; lia.
  - unfold in_int, INT_MIN, INT_MAX; lia.
Defined.

(** ** The probe: accuracy of the derived metrics *)

Lemma Z_to_double_value z :
  0 < z < 2 ^ 53 ->
  exists m e,
    Z_to_double z = S754_finite false m e /\
    2 ^ 52 <= Zpos m < 2 ^ 53 /\ -52 <= e <= 0 /\
    (B2Q (Zpos m) e == inject_Z z)%Q.
Proof.
  intros Hz.
  destruct (Z_to_double_canon z ltac:(lia) ltac:(lia)) as (m & E & Hm).
  pose proof (Zdigits2_le_53 z Hz) as Hd.
  destruct (Zdigits2_bounds z ltac:(lia)) as (_ & B1 & B2).
  rewrite Z.abs_eq in Hm by lia.
  exists m, (Zdigits2 z - 53). split.
  { rewrite E. by destruct (Z.ltb_spec z 0); [lia|]. }
  set (d := Zdigits2 z) in *.
  pose proof (Z.pow_pos_nonneg 2 (53 - d) ltac:(lia) ltac:(lia)) as Hp.
  split; [|split; [lia|]].
  - rewrite Hm. split.
    + replace 52 with (d - 1 + (53 - d)) by lia.
      rewrite Z.pow_add_r by lia. nia.
    + replace 53 with (d + (53 - d)) at 2 by lia.
      rewrite Z.pow_add_r by lia. nia.
  - rewrite Hm, B2Q_shift by lia.
    replace (d - 53 + (53 - d)) with 0 by lia.
    unfold B2Q. rewrite Qpower_0_r. ring.
Qed.

(** The quotient of two positive integers below 2^53, computed in double,
    is within a relative [2^-52] of the exact quotient. *)
Lemma ddiv_accuracy x y :
  0 < x < 2 ^ 53 -> 0 < y < 2 ^ 53 ->
  exists m e,
    ddiv (Z_to_double x) (Z_to_double y) = S754_finite false m e /\
    2 ^ 52 <= Zpos m < 2 ^ 53 /\ -105 <= e <= 1 /\
    ((1 - u52) * B2Q (Zpos m) e <= inject_Z x / inject_Z y
     <= (1 + u52) * B2Q (Zpos m) e)%Q.
Proof.
  intros Hx Hy.
  destruct (Z_to_double_value x Hx) as (mx & ex & -> & Hmx & Hex & Vx).
  destruct (Z_to_double_value y Hy) as (my & ey & -> & Hmy & Hey & Vy).
  destruct (ddiv_faithful false mx ex false my ey Hmx Hmy ltac:(lia))
    as (m & e & E & Hm & He & HX).
  exists m, e. rewrite E. split; [done|]. split; [done|]. split; [lia|].
  by rewrite Vx, Vy in HX.
Qed.

(** [nb_s()] on an interval of [t1 - t0] nanoseconds (below 2^53, that is
    about 104 days): a zero for an empty interval, and otherwise a finite
    double within a relative [2^-52] of [(t1 - t0) / 10^9]. *)
Theorem nb_s_accuracy (t0 a b t1 : Z) (PE : EvalPerf) :
  t0 <= t1 -> t1 - t0 < 2 ^ 53 ->
  (t1 = t0 -> fst (nb_s (measure t0 a b t1 PE)) = S754_zero false) /\
  (t0 < t1 ->
   is_finite (fst (nb_s (measure t0 a b t1 PE))) = true /\
   ((1 - u52) * SF2Q (fst (nb_s (measure t0 a b t1 PE)))
    <= inject_Z (t1 - t0) / 1000000000
    <= (1 + u52) * SF2Q (fst (nb_s (measure t0 a b t1 PE))))%Q).
Proof.
  intros Hle Hlt. unfold nb_s, measure, stop, start. cbn [fst init end_].
  split.
  - intros ->. by rewrite Z.sub_diag.
  - intros Hpos.
    destruct (ddiv_accuracy (t1 - t0) 1000000000 ltac:(lia) ltac:(lia))
      as (m & e & -> & _ & _ & HX).
    split; [done|]. exact HX.
Qed.

Lemma nb_s_accuracy_witness :
  is_finite (fst (nb_s (measure 0 100 350 1500000000 PE_blank))) = true /\
  ((1 - u52) * SF2Q (fst (nb_s (measure 0 100 350 1500000000 PE_blank)))
   <= inject_Z (1500000000 - 0) / 1000000000
   <= (1 + u52) * SF2Q (fst (nb_s (measure 0 100 350 1500000000 PE_blank))))%Q.
Proof.
  apply (proj2 (nb_s_accuracy 0 100 350 1500000000 PE_blank
                  ltac:(lia) ltac:(lia))). lia.
Defined.

(** [nb_ms()] called after [nb_s()] is within two roundings, a relative
    [(1 + 2^-52)^2], of [(t1 - t0) / 10^6]. *)
Theorem nb_ms_accuracy (t0 a b t1 : Z) (PE : EvalPerf) :
  t0 < t1 -> t1 - t0 < 2 ^ 53 ->
  is_finite (nb_ms (snd (nb_s (measure t0 a b t1 PE)))) = true /\
  ((1 - u52) * (1 - u52) * SF2Q (nb_ms (snd (nb_s (measure t0 a b t1 PE))))
   <= inject_Z (t1 - t0) / 1000000
   <= (1 + u52) * (1 + u52)
      * SF2Q (nb_ms (snd (nb_s (measure t0 a b t1 PE)))))%Q.
Proof.
  intros Hpos Hlt. unfold nb_ms, nb_s, measure, stop, start.
  cbn [snd elapsed_s init end_].
  destruct (ddiv_accuracy (t1 - t0) 1000000000 ltac:(lia) ltac:(lia))
    as (m & e & -> & Hm & He & HX).
  destruct (Z_to_double_value 1000 ltac:(lia))
    as (mk & ek & -> & Hmk & Hek & Vk).
  destruct (dmul_faithful false m e false mk ek Hm Hmk ltac:(lia))
    as (m' & e' & -> & Hm' & He' & HY).
  split; [done|]. cbn [SF2Q xorb cond_Zopp].
  fold (B2Q (Zpos m') e'). rewrite Vk in HY.
  change (inject_Z 1000) with 1000%Q in HY.
  change (inject_Z 1000000000) with 1000000000%Q in HX.
  pose proof (B2Q_pos (Zpos m') e' ltac:(lia)) as HM.
  set (S := B2Q (Zpos m) e) in *. set (M := B2Q (Zpos m') e') in *.
  set (D := inject_Z (t1 - t0)) in *.
  assert (HD : (D / 1000000 == 1000 * (D / 1000000000))%Q) by field.
  rewrite HD. set (D9 := (D / 1000000000)%Q) in *. clearbody S M D9.
  unfold u52 in *. split; lra.
Qed.

Lemma nb_ms_accuracy_witness :
  is_finite (nb_ms (snd (nb_s (measure 0 100 350 1500000000 PE_blank))))
  = true /\
  ((1 - u52) * (1 - u52)
   * SF2Q (nb_ms (snd (nb_s (measure 0 100 350 1500000000 PE_blank))))
   <= inject_Z (1500000000 - 0) / 1000000
   <= (1 + u52) * (1 + u52)
      * SF2Q (nb_ms (snd (nb_s (measure 0 100 350 1500000000 PE_blank)))))%Q.
Proof. apply (nb_ms_accuracy 0 100 350 1500000000 PE_blank); lia. Defined.

(** After [nb_c()] on an interval of [b - a > 0] cycles (readings below
    2^53), for a positive operation count [N], [cpi(N)] is within a relative
    [2^-52] of [N / (b - a)] and [ipc(N)] of [(b - a) / N]. *)
Theorem cpi_ipc_accuracy (t0 a b t1 N : Z) (PE : EvalPerf) :
  0 <= a < b -> b < 2 ^ 53 -> 0 < N <= INT_MAX ->
  (is_finite (cpi N (measure_nb_c t0 a b t1 PE)) = true /\
   ((1 - u52) * SF2Q (cpi N (measure_nb_c t0 a b t1 PE))
    <= inject_Z N / inject_Z (b - a)
    <= (1 + u52) * SF2Q (cpi N (measure_nb_c t0 a b t1 PE)))%Q) /\
  (is_finite (ipc N (measure_nb_c t0 a b t1 PE)) = true /\
   ((1 - u52) * SF2Q (ipc N (measure_nb_c t0 a b t1 PE))
    <= inject_Z (b - a) / inject_Z N
    <= (1 + u52) * SF2Q (ipc N (measure_nb_c t0 a b t1 PE)))%Q).
Proof.
  intros Hab Hb HN. unfold INT_MAX in HN. unfold cpi, ipc.
  rewrite nb_tot_measure_nb_c, dsub_exact by lia.
  destruct (ddiv_accuracy N (b - a) ltac:(lia) ltac:(lia))
    as (m & e & -> & _ & _ & HX).
  destruct (ddiv_accuracy (b - a) N ltac:(lia) ltac:(lia))
    as (m' & e' & -> & _ & _ & HY).
  split; (split; [done|]); [exact HX|exact HY].
Qed.

Lemma cpi_ipc_accuracy_witness :
  (is_finite (cpi 60 (measure_nb_c 0 100 350 9 PE_blank)) = true /\
   ((1 - u52) * SF2Q (cpi 60 (measure_nb_c 0 100 350 9 PE_blank))
    <= inject_Z 60 / inject_Z (350 - 100)
    <= (1 + u52) * SF2Q (cpi 60 (measure_nb_c 0 100 350 9 PE_blank)))%Q) /\
  (is_finite (ipc 60 (measure_nb_c 0 100 350 9 PE_blank)) = true /\
   ((1 - u52) * SF2Q (ipc 60 (measure_nb_c 0 100 350 9 PE_blank))
    <= inject_Z (350 - 100) / inject_Z 60
    <= (1 + u52) * SF2Q (ipc 60 (measure_nb_c 0 100 350 9 PE_blank)))%Q).
Proof.
  apply (cpi_ipc_accuracy 0 100 350 9 60 PE_blank); unfold INT_MAX; lia.
Defined.

(** ** The cycle counter and the polynomial kernels: witnesses *)

(** [rdtsc] packs the two 32-bit halves into a 64-bit unsigned value from
    which both can be read back. *)
Theorem rdtsc_halves (lo hi : Z) :
  0 <= lo < 2 ^ 32 -> 0 <= hi < 2 ^ 32 ->
  0 <= rdtsc lo hi < 2 ^ 64 /\
  rdtsc lo hi / 2 ^ 32 = hi /\ rdtsc lo hi mod 2 ^ 32 = lo.
Proof.
  intros Hlo Hhi. destruct (rdtsc_range lo hi Hlo Hhi) as [-> Hr].
  split; [done|]. split.
  - rewrite Z.div_add_l by lia. rewrite Z.div_small by lia. lia.
  - rewrite Z.add_comm, Z.mod_add by lia. apply Z.mod_small. lia.
Qed.

Lemma rdtsc_halves_witness :
  0 <= rdtsc 4294967295 7 < 2 ^ 64 /\
  rdtsc 4294967295 7 / 2 ^ 32 = 7 /\
  rdtsc 4294967295 7 mod 2 ^ 32 = 4294967295.
Proof. apply (rdtsc_halves 4294967295 7); lia. Defined.

Lemma ma_fonction_naive_spec_witness :
  ma_fonction_naive [4; -2; 3] (Z.of_nat (length [4; -2; 3])) (-5)
  = Some (poly_sum [4; -2; 3] (-5) 0).
Proof.
  apply (ma_fonction_naive_spec [4; -2; 3] (-5)).
  - intros j c H. destruct j as [|[|[|j]]]; try discriminate H;
      injection H as <-; vm_compute; repeat split.
  - intros j Hj. destruct j as [|[|[|[|j]]]]; [..|simpl in Hj; lia];
      vm_compute; split; discriminate.
Defined.
